(** * rag-eval-harness: retrieval, scoring and regression analysis

    A shallow embedding of [rag_eval/evaluate.py], [rag_eval/report.py] and
    [rag_eval/retrieve.py].

    Conventions.
    - A Python [str] is a [string]; its characters are the code points
      U+0000..U+00FF, one per [ascii].
    - A Python [float] is a real number of [R]: arithmetic is exact, so
      rounding errors of binary64 (and NaN, infinities) are outside the model.
    - A raised exception is the [Raise] branch of [result]. *)

From Stdlib Require Import Reals Lra Lia ZArith List Ascii String Bool.
From stdpp Require Import gmap strings list sorting.

Local Open Scope string_scope.
#[local] Set Warnings "-clear-no-such-hyp".

(** ** Exceptions *)

Inductive exn : Type :=
| ValueError (msg : string)
| InvalidParameterError (param : string)
| IndexError
| KeyError (key : string).

Inductive result (A : Type) : Type :=
| Ok (a : A)
| Raise (e : exn).
Arguments Ok {A} a.
Arguments Raise {A} e.

#[global] Instance result_ret : MRet result := fun A a => Ok a.
#[global] Instance result_bind : MBind result := fun A B k r =>
  match r with
  | Ok a => k a
  | Raise e => Raise e
  end.

Definition is_ok {A} (r : result A) : bool :=
  match r with Ok _ => true | Raise _ => false end.

(** ** Text primitives of Python used by the source *)

Module Text.

Definition code (c : ascii) : nat := nat_of_ascii c.

Definition between (lo hi n : nat) : bool := (lo <=? n)%nat && (n <=? hi)%nat.

(** [str.isspace] of one character, which is also what [\s] matches in a
    [str] pattern: TAB..CR, FS..US, SPACE, NEL, NBSP. *)
Definition isspace (c : ascii) : bool :=
  let n := code c in
  between 9 13 n || between 28 32 n || (n =? 133)%nat || (n =? 160)%nat.

(** [str.lower] of one character: A-Z and the Latin-1 capitals
    U+00C0..U+00DE (the multiplication sign U+00D7 apart). *)
Definition lower_char (c : ascii) : ascii :=
  let n := code c in
  if between 65 90 n || (between 192 222 n && negb (n =? 215)%nat)
  then ascii_of_nat (n + 32) else c.

(** What [\w] matches in a [str] pattern: alphanumerics and underscore. *)
Definition isword (c : ascii) : bool :=
  let n := code c in
  between 48 57 n || between 65 90 n || (n =? 95)%nat || between 97 122 n
  || (n =? 170)%nat || (n =? 178)%nat || (n =? 179)%nat || (n =? 181)%nat
  || (n =? 185)%nat || (n =? 186)%nat || between 188 190 n
  || (between 192 255 n && negb (n =? 215)%nat && negb (n =? 247)%nat).

Definition lower (l : list ascii) : list ascii := map lower_char l.

Fixpoint lstrip (l : list ascii) : list ascii :=
  match l with
  | [] => []
  | c :: l' => if isspace c then lstrip l' else l
  end.

Fixpoint rstrip (l : list ascii) : list ascii :=
  match l with
  | [] => []
  | c :: l' =>
      match rstrip l' with
      | [] => if isspace c then [] else [c]
      | r => c :: r
      end
  end.

(** [s.strip()] *)
Definition strip (l : list ascii) : list ascii := rstrip (lstrip l).

(** [re.sub(r"\s+", " ", s)]: every maximal run of whitespace becomes one
    space.  [in_run] tells that the previous character was whitespace. *)
Fixpoint sub_ws (in_run : bool) (l : list ascii) : list ascii :=
  match l with
  | [] => []
  | c :: l' =>
      if isspace c
      then if in_run then sub_ws true l' else " "%char :: sub_ws true l'
      else c :: sub_ws false l'
  end.

Fixpoint startswith (p a : list ascii) : bool :=
  match p, a with
  | [], _ => true
  | _ :: _, [] => false
  | x :: p', y :: a' => Ascii.eqb x y && startswith p' a'
  end.

(** [p in a] for two strings *)
Fixpoint contains (a p : list ascii) : bool :=
  startswith p a ||
  match a with
  | [] => false
  | _ :: a' => contains a' p
  end.

(** Maximal runs of characters satisfying [keep]: [s.split()] for
    non-whitespace, the matches of [\w+] for word characters. *)
Fixpoint runs (keep : ascii -> bool) (l : list ascii) : list (list ascii) :=
  match l with
  | [] => []
  | c :: l' =>
      let rs := runs keep l' in
      if keep c then
        match l' with
        | c' :: _ =>
            if keep c'
            then match rs with
                 | r :: rs' => (c :: r) :: rs'
                 | [] => [[c]]
                 end
            else [c] :: rs
        | [] => [c] :: rs
        end
      else rs
  end.

End Text.

Definition chars (s : string) : list ascii := list_ascii_of_string s.
Definition str (l : list ascii) : string := string_of_list_ascii l.

(** [not s]: the empty string is falsy *)
Definition falsy (s : string) : bool :=
  match s with EmptyString => true | _ => false end.

Definition str_strip (s : string) : string := str (Text.strip (chars s)).
Definition str_lower (s : string) : string := str (Text.lower (chars s)).
Definition str_in (p a : string) : bool := Text.contains (chars a) (chars p).

(** ** evaluate.py: phrase scores *)

Definition _normalize (text : string) : string :=
  let text := str_lower text in
  str (Text.strip (Text.sub_ws false (chars text))).

(** One turn of the loop shared by the two phrase scores:
    [if p and p in a: hits += 1]. *)
Definition phrase_hit (a : string) (phrase : string) : bool :=
  let p := _normalize phrase in
  negb (falsy p) && str_in p a.

Definition count_hits (a : string) (phrases : list string) : nat :=
  fold_left (fun hits phrase => if phrase_hit a phrase then S hits else hits)
            phrases 0%nat.

Definition must_include_score (answer : string) (must_include : list string) : R :=
  match must_include with
  | [] => 1%R
  | _ =>
      let a := _normalize answer in
      let hits := count_hits a must_include in
      (INR hits / INR (length must_include))%R
  end.

Definition must_not_include_violations (answer : string)
    (must_not_include : list string) : nat :=
  match must_not_include with
  | [] => 0%nat
  | _ =>
      let a := _normalize answer in
      count_hits a must_not_include
  end.


(** ** Floats as reals *)

Definition Rleb (x y : R) : bool := if Rle_dec x y then true else false.

(** [round(x, ndigits)]: to the nearest multiple of [10^-ndigits], a tie
    going to the even one. *)
Definition round_half_even (x : R) : Z :=
  let f := Zfloor x in
  let r := (x - IZR f)%R in
  if Rlt_dec r (1 / 2) then f
  else if Rlt_dec (1 / 2) r then (f + 1)%Z
  else if Z.even f then f else (f + 1)%Z.

Definition round (x : R) (ndigits : nat) : R :=
  (IZR (round_half_even (x * 10 ^ ndigits)) / 10 ^ ndigits)%R.

(** ** numpy: argsort *)

Section Argsort.
Context {K : Type} (leb : K -> K -> bool).

Fixpoint insert_key (x : nat * K) (l : list (nat * K)) : list (nat * K) :=
  match l with
  | [] => [x]
  | y :: l' => if leb (snd x) (snd y) then x :: l else y :: insert_key x l'
  end.

Fixpoint sort_keys (l : list (nat * K)) : list (nat * K) :=
  match l with
  | [] => []
  | x :: l' => insert_key x (sort_keys l')
  end.

(** [keys.argsort()]: the indices that sort [keys] in ascending order, as
    numpy's insertion sort of short arrays gives them: equal keys keep
    their index order. *)
Definition argsort (keys : list K) : list nat :=
  map fst (sort_keys (imap (fun i k => (i, k)) keys)).
End Argsort.

(** ** scikit-learn: TfidfVectorizer and cosine_similarity

    Library code, embedded after its documented behaviour for the options the
    source passes: [stop_words="english"], [ngram_range=(1, 2)], an optional
    [max_features], and the defaults [lowercase=True],
    [token_pattern=r"(?u)\b\w\w+\b"], [norm="l2"], [smooth_idf=True]. *)

Module Sklearn.

Definition dot (u v : list R) : R := fold_right Rplus 0%R (zip_with Rmult u v).

Definition row_norm (v : list R) : R := sqrt (dot v v).

(** [normalize(X, norm="l2")] on one row: a zero norm is replaced by 1. *)
Definition normalize (v : list R) : list R :=
  let n := row_norm v in
  let n := if Req_dec_T n 0 then 1%R else n in
  map (fun x => (x / n)%R) v.

(** [cosine_similarity(X, Y)]: one row per row of [X], one column per row
    of [Y]. *)
Definition cosine_similarity (X Y : list (list R)) : list (list R) :=
  let Xn := map normalize X in
  let Yn := map normalize Y in
  map (fun x => map (fun y => dot x y) Yn) Xn.

Fixpoint bigrams (tokens : list string) : list string :=
  match tokens with
  | a :: tl =>
      match tl with
      | b :: _ => (a ++ " " ++ b) :: bigrams tl
      | [] => []
      end
  | [] => []
  end.

(** Occurrences of term [t] in an analysed document *)
Definition tf (t : string) (terms : list string) : nat :=
  length (List.filter (String.eqb t) terms).

Definition sum_nat (l : list nat) : nat := fold_right Nat.add 0%nat l.

Record TfidfVectorizer := mkVectorizer {
  vocabulary_ : list string;   (* the terms, one per column *)
  idf_ : list R                (* one weight per column *)
}.

Section Vectorizer.
(** [ENGLISH_STOP_WORDS], the table behind [stop_words="english"] *)
Variable ENGLISH_STOP_WORDS : list string.

(** Lowercase, keep the runs of two or more word characters. *)
Definition tokenize (doc : string) : list string :=
  map str (List.filter (fun r => (2 <=? length r)%nat)
                       (Text.runs Text.isword (Text.lower (chars doc)))).

Definition word_ngrams (tokens : list string) : list string :=
  let tokens :=
    List.filter (fun w => negb (existsb (String.eqb w) ENGLISH_STOP_WORDS))
                tokens in
  tokens ++ bigrams tokens.

Definition analyze (doc : string) : list string := word_ngrams (tokenize doc).

(** The terms of the corpus in sorted order *)
Definition sorted_features (analysed : list (list string)) : list string :=
  merge_sort String.le (remove_dups (concat analysed)).

(** With more than [limit] terms, keep the [limit] most frequent ones. *)
Definition limit_features (max_features : option nat)
    (analysed : list (list string)) (vocab : list string) : list string :=
  match max_features with
  | Some limit =>
      if (limit <? length vocab)%nat then
        let tfs := map (fun t => sum_nat (map (tf t) analysed)) vocab in
        let mask_inds :=
          take limit (argsort Z.leb (map (fun n => (- Z.of_nat n)%Z) tfs)) in
        omap (fun it => if existsb (Nat.eqb (fst it)) mask_inds
                        then Some (snd it) else None)
             (imap (fun i t => (i, t)) vocab)
      else vocab
  | None => vocab
  end.

(** Number of documents that contain [t] *)
Definition df (t : string) (analysed : list (list string)) : nat :=
  length (List.filter (fun terms => (0 <? tf t terms)%nat) analysed).

Definition idf (n_samples d : nat) : R :=
  (ln ((1 + INR n_samples) / (1 + INR d)) + 1)%R.

Definition counts (vocab : list string) (terms : list string) : list R :=
  map (fun t => INR (tf t terms)) vocab.

Definition tfidf_row (v : TfidfVectorizer) (terms : list string) : list R :=
  normalize (zip_with Rmult (counts (vocabulary_ v) terms) (idf_ v)).

(** [vectorizer.transform(raw_documents)] *)
Definition transform (v : TfidfVectorizer) (raw_documents : list string)
  : list (list R) :=
  map (fun doc => tfidf_row v (analyze doc)) raw_documents.

(** [TfidfVectorizer(stop_words="english", max_features=.., ngram_range=(1, 2))
    .fit_transform(raw_documents)]: the fitted vectorizer and the
    document-term matrix. *)
Definition fit_transform (max_features : option Z) (raw_documents : list string)
  : result (TfidfVectorizer * list (list R)) :=
  match max_features with
  | Some m =>
      if (m <=? 0)%Z then Raise (InvalidParameterError "max_features")
      else Ok tt
  | None => Ok tt
  end ≫= fun _ =>
  let analysed := map analyze raw_documents in
  if bool_decide (concat analysed = []) then
    Raise (ValueError
      "empty vocabulary; perhaps the documents only contain stop words")
  else
    let vocab := limit_features (Z.to_nat <$> max_features) analysed
                   (sorted_features analysed) in
    let n := length raw_documents in
    let v := {| vocabulary_ := vocab;
                idf_ := map (fun t => idf n (df t analysed)) vocab |} in
    Ok (v, map (tfidf_row v) analysed).
End Vectorizer.

End Sklearn.

Definition newline : string := String (ascii_of_nat 10) "".

(** [xs[i]] for a list: out of range raises *)
Definition getitem {A} (xs : list A) (i : nat) : result A :=
  match xs !! i with
  | Some x => Ok x
  | None => Raise IndexError
  end.

Section RagEval.
Variable ENGLISH_STOP_WORDS : list string.

(** ** evaluate.py: grounding and the run table *)

Definition grounding_score (answer context : string) : result R :=
  let answer := str_strip answer in
  let context := str_strip context in
  if falsy answer || falsy context then Ok 0%R
  else
    fitted ← Sklearn.fit_transform ENGLISH_STOP_WORDS None [answer; context];
    let mat := snd fitted in
    sim ← getitem (concat (Sklearn.cosine_similarity
                             (take 1 mat) (take 1 (drop 1 mat)))) 0;
    if Rlt_dec sim 0 then Ok 0%R
    else if Rlt_dec 1 sim then Ok 1%R
    else Ok sim.






(** ** retrieve.py *)

Record Document := mkDocument {
  doc_id : string;
  title : string;
  text : string
}.

Record RetrievedDoc := mkRetrievedDoc {
  hit_doc_id : string;
  hit_title : string;
  hit_text : string;
  score : R
}.

Record TfidfRetriever := mkRetriever {
  _docs : list Document;
  _vectorizer : Sklearn.TfidfVectorizer;
  _doc_matrix : list (list R)
}.

(** [TfidfRetriever(documents, max_features=max_features)] *)
Definition TfidfRetriever_init (documents : list Document) (max_features : Z)
  : result TfidfRetriever :=
  match documents with
  | [] => Raise (ValueError "documents must not be empty")
  | _ =>
      let corpus := map (fun d => title d ++ newline ++ text d) documents in
      fitted ← Sklearn.fit_transform ENGLISH_STOP_WORDS (Some max_features) corpus;
      Ok {| _docs := documents;
            _vectorizer := fst fitted;
            _doc_matrix := snd fitted |}
  end.

Definition similarities (self : TfidfRetriever) (query : string) : list R :=
  let q_vec := Sklearn.transform ENGLISH_STOP_WORDS (_vectorizer self) [query] in
  concat (Sklearn.cosine_similarity q_vec (_doc_matrix self)).

Definition retrieve (self : TfidfRetriever) (query : string) (top_k : Z)
  : result (list RetrievedDoc) :=
  if falsy query || falsy (str_strip query)
  then Raise (ValueError "query must not be empty")
  else if (top_k <=? 0)%Z then Raise (ValueError "top_k must be > 0")
  else
    let sims := similarities self query in
    let ranked_idx := take (Z.to_nat top_k) (rev (argsort Rleb sims)) in
    mapM (fun idx =>
            d ← getitem (_docs self) idx;
            s ← getitem sims idx;
            Ok {| hit_doc_id := doc_id d;
                  hit_title := title d;
                  hit_text := text d;
                  score := s |})
         ranked_idx.
End RagEval.

(** ** report.py *)

(** One line of an eval CSV.  The two score cells are kept as [float(x)]
    reads them and the violation cell as [int(x)] reads it: [None] where the
    conversion raises. *)
Record EvalRow := mkEvalRow {
  row_id : string;
  row_question : option string;
  row_must_include_score : option R;
  row_grounding_score : option R;
  row_must_not_include_violations : option Z
}.

Record Delta := mkDelta {
  delta_id : string;
  delta_question : string;
  delta_must_include : R;
  delta_grounding : R;
  delta_violations : Z
}.

Record Summary := mkSummary {
  count : nat;
  avg_delta_must_include : R;
  avg_delta_grounding : R;
  total_new_violations : Z
}.

Record Comparison := mkComparison {
  summary : Summary;
  deltas : list Delta
}.

Definition load_eval_csv (lines : list EvalRow) : result (gmap string EvalRow) :=
  let rows := foldl (fun rows row => <[row_id row := row]> rows) ∅ lines in
  if bool_decide (rows = ∅) then Raise (ValueError "No rows found")
  else Ok rows.

Definition fnum (x : option R) (default : R) : R :=
  match x with
  | Some v => v
  | None => default
  end.

Definition int (x : option Z) : result Z :=
  match x with
  | Some z => Ok z
  | None => Raise (ValueError "invalid literal for int()")
  end.

Definition getkey (rows : gmap string EvalRow) (qid : string) : result EvalRow :=
  match rows !! qid with
  | Some r => Ok r
  | None => Raise (KeyError qid)
  end.

Definition sum_R (l : list R) : R := fold_right Rplus 0%R l.
Definition sum_Z (l : list Z) : Z := fold_right Z.add 0%Z l.

Definition delta_of (old new : gmap string EvalRow) (qid : string) : result Delta :=
  o ← getkey old qid;
  n ← getkey new qid;
  nv ← int (row_must_not_include_violations n);
  ov ← int (row_must_not_include_violations o);
  Ok {| delta_id := qid;
        delta_question := default "" (row_question n);
        delta_must_include :=
          (fnum (row_must_include_score n) 0 - fnum (row_must_include_score o) 0)%R;
        delta_grounding :=
          (fnum (row_grounding_score n) 0 - fnum (row_grounding_score o) 0)%R;
        delta_violations := (nv - ov)%Z |}.

Definition compare_runs (old_csv new_csv : list EvalRow) : result Comparison :=
  old ← load_eval_csv old_csv;
  new ← load_eval_csv new_csv;
  let common_ids := merge_sort String.le (elements (dom old ∩ dom new)) in
  match common_ids with
  | [] => Raise (ValueError "No overlapping question IDs between runs")
  | _ =>
      deltas ← mapM (delta_of old new) common_ids;
      let avg (key : Delta -> R) : R :=
        (sum_R (map key deltas) / INR (length deltas))%R in
      Ok {| summary :=
              {| count := length deltas;
                 avg_delta_must_include := round (avg delta_must_include) 3;
                 avg_delta_grounding := round (avg delta_grounding) 3;
                 total_new_violations :=
                   sum_Z (map (fun d => Z.max 0 (delta_violations d)) deltas) |};
            deltas := deltas |}
  end.

(** * Properties *)

(** ** Strings and their characters *)

Lemma chars_str l : chars (str l) = l.
Proof. apply list_ascii_of_string_of_list_ascii. Qed.

Lemma str_chars s : str (chars s) = s.
Proof. apply string_of_list_ascii_of_string. Qed.

Lemma chars_app s1 s2 : chars (s1 ++ s2) = (chars s1 ++ chars s2)%list.
Proof. induction s1 as [|c s1 IH]; simpl; [done|]. unfold chars in *. simpl. by rewrite IH. Qed.

Lemma str_app l1 l2 : str (l1 ++ l2)%list = str l1 ++ str l2.
Proof. induction l1 as [|c l1 IH]; simpl; [done|]. unfold str in *. simpl. by rewrite IH. Qed.

Lemma chars_inj s1 s2 : chars s1 = chars s2 -> s1 = s2.
Proof. intros H. by rewrite <- (str_chars s1), <- (str_chars s2), H. Qed.

Lemma falsy_spec s : falsy s = true <-> s = "".
Proof. destruct s; simpl; split; congruence. Qed.

Lemma falsy_str l : falsy (str l) = true <-> l = [].
Proof. destruct l; simpl; split; congruence. Qed.

(** ** Substring search *)

Module TextFacts.
Import Text.

Lemma startswith_spec p a :
  startswith p a = true <-> exists post, a = (p ++ post)%list.
Proof.
  revert a. induction p as [|x p IH]; intros a; simpl.
  - split; [intros _; by exists a | done].
  - destruct a as [|y a].
    + split; [done | intros [post H]; discriminate].
    + rewrite andb_true_iff, IH. split.
      * intros [Hxy [post ->]]. apply Ascii.eqb_eq in Hxy as ->. by exists post.
      * intros [post H]. injection H as -> ->. split; [apply Ascii.eqb_refl | by exists post].
Qed.

Lemma contains_spec a p :
  contains a p = true <-> exists pre post, a = (pre ++ p ++ post)%list.
Proof.
  induction a as [|y a IH].
  - simpl. rewrite orb_false_r, startswith_spec. split.
    + intros [post H]. by exists [], post.
    + intros [pre [post H]]. destruct pre; [by exists post | discriminate].
  - cbn [contains]. rewrite orb_true_iff, startswith_spec, IH. split.
    + intros [[post H] | [pre [post H]]].
      * by exists [], post.
      * exists (y :: pre), post. by rewrite H.
    + intros [pre [post H]]. destruct pre as [|z pre].
      * left. by exists post.
      * right. injection H as -> ->. by exists pre, post.
Qed.
End TextFacts.

(** [p] is a literal substring of [a] *)
Definition occurs_in (p a : string) : Prop :=
  exists pre post : string, a = pre ++ p ++ post.

Lemma str_in_spec p a : str_in p a = true <-> occurs_in p a.
Proof.
  unfold str_in, occurs_in. rewrite TextFacts.contains_spec. split.
  - intros [pre [post H]]. exists (str pre), (str post).
    apply chars_inj. by rewrite !chars_app, !chars_str.
  - intros [pre [post ->]]. exists (chars pre), (chars post).
    by rewrite !chars_app.
Qed.

#[global] Instance occurs_in_dec p a : Decision (occurs_in p a).
Proof.
  destruct (str_in p a) eqn:E.
  - left. by apply str_in_spec.
  - right. intros H. apply str_in_spec in H. congruence.
Defined.

(** ** Normalisation as words joined by single spaces *)

(** The words of a text, put together again with one space between two. *)
Fixpoint join_words (ws : list (list ascii)) : list ascii :=
  match ws with
  | [] => []
  | w :: ws' =>
      match ws' with
      | [] => w
      | _ :: _ => (w ++ " "%char :: join_words ws')%list
      end
  end.

Definition nonspace (c : ascii) : bool := negb (Text.isspace c).

(** The normal form in the words of the specification: lowercase, every run
    of whitespace one space, no whitespace at either end. *)
Definition spec_normalize (text : string) : string :=
  str (join_words (Text.runs nonspace (Text.lower (chars text)))).

Module NormalizeFacts.
Import Text.

Definition lead (l : list ascii) : bool :=
  match l with c :: _ => isspace c | [] => false end.

Definition nonempty {A} (l : list A) : bool :=
  match l with [] => false | _ => true end.

Lemma isspace_space : isspace " "%char = true.
Proof. reflexivity. Qed.

Lemma runs_head c l : nonspace c = true -> runs nonspace (c :: l) <> [].
Proof.
  intros Hc. cbn [runs]. rewrite Hc.
  destruct l as [|c' l']; [done|].
  destruct (nonspace c'); [|done]. by destruct (runs nonspace (c' :: l')).
Qed.

Lemma runs_no_empty_word l : Forall (fun w => w <> []) (runs nonspace l).
Proof.
  induction l as [|c l IH]; [constructor|].
  cbn [runs]. destruct (nonspace c); [|done].
  destruct l as [|c' l']; [by repeat constructor|].
  destruct (nonspace c').
  - destruct (runs nonspace (c' :: l')) as [|r rs]; [by repeat constructor|].
    inversion IH; subst. by constructor.
  - by constructor.
Qed.

Lemma join_words_nil ws :
  Forall (fun w => w <> []) ws -> join_words ws = [] -> ws = [].
Proof.
  intros HF H. destruct ws as [|w ws']; [done|].
  inversion HF as [|? ? Hw _]; subst. simpl in H.
  destruct ws'; [done|]. by destruct w.
Qed.

Lemma rstrip_cons_nonspace c l :
  isspace c = false -> rstrip (c :: l) = c :: rstrip l.
Proof. intros Hc. cbn [rstrip]. rewrite Hc. by destruct (rstrip l). Qed.

Lemma runs_space c l :
  isspace c = true -> runs nonspace (c :: l) = runs nonspace l.
Proof. intros Hc. cbn [runs]. unfold nonspace at 1. by rewrite Hc. Qed.

Lemma runs_word_space c c' l :
  isspace c = false -> isspace c' = true ->
  runs nonspace (c :: c' :: l) = [c] :: runs nonspace (c' :: l).
Proof.
  intros Hc Hc'. remember (c' :: l) as l' eqn:El. cbn [runs].
  unfold nonspace at 1. rewrite Hc. cbn [negb]. subst l'.
  unfold nonspace at 1. by rewrite Hc'.
Qed.

Lemma runs_word_word c c' l :
  isspace c = false -> isspace c' = false ->
  exists r rs, runs nonspace (c' :: l) = r :: rs /\
               runs nonspace (c :: c' :: l) = (c :: r) :: rs.
Proof.
  intros Hc Hc'.
  assert (Hne : runs nonspace (c' :: l) <> []).
  { apply runs_head. unfold nonspace. by rewrite Hc'. }
  destruct (runs nonspace (c' :: l)) as [|r rs] eqn:Hr; [done|].
  exists r, rs. split; [done|].
  remember (c' :: l) as l' eqn:El. cbn [runs].
  unfold nonspace at 1. rewrite Hc. cbn [negb]. subst l'.
  unfold nonspace at 1. rewrite Hc'. cbn [negb]. by rewrite Hr.
Qed.

Lemma rstrip_sub_ws b l :
  rstrip (sub_ws b l) =
  ((if lead l && negb b && nonempty (runs nonspace l) then [" "%char] else [])
     ++ join_words (runs nonspace l))%list.
Proof.
  revert b. induction l as [|c l IH]; intros b; [done|].
  cbn [sub_ws lead]. destruct (isspace c) eqn:Hc.
  - rewrite (runs_space c l Hc).
    pose proof (IH true) as IHt. rewrite andb_false_r in IHt. simpl in IHt.
    destruct b; cbn [negb andb].
    + by rewrite IHt.
    + cbn [rstrip]. rewrite IHt, isspace_space.
      destruct (runs nonspace l) as [|r rs] eqn:Hr; [done|].
      destruct (join_words (r :: rs)) eqn:Hj; [|done].
      apply join_words_nil in Hj; [done|]. rewrite <- Hr. apply runs_no_empty_word.
  - rewrite rstrip_cons_nonspace by done. rewrite (IH false). cbn [andb negb app].
    destruct l as [|c' l'].
    { cbn [runs]. unfold nonspace. by rewrite Hc. }
    cbn [lead]. destruct (isspace c') eqn:Hc'; cbn [negb andb].
    + rewrite (runs_word_space c c' l' Hc Hc').
      by destruct (runs nonspace (c' :: l')).
    + destruct (runs_word_word c c' l' Hc Hc') as (r & rs & -> & ->).
      cbn [app join_words]. by destruct rs.
Qed.

Lemma lstrip_sub_ws b l : lstrip (sub_ws b l) = sub_ws false (lstrip l).
Proof.
  revert b. induction l as [|c l IH]; intros b; [done|].
  cbn [sub_ws lstrip]. destruct (isspace c) eqn:Hc.
  - destruct b; [apply IH|]. cbn [lstrip]. rewrite isspace_space. apply IH.
  - cbn [lstrip sub_ws]. by rewrite Hc.
Qed.

Lemma lead_lstrip l : lead (lstrip l) = false.
Proof.
  induction l as [|c l IH]; [done|]. cbn [lstrip].
  destruct (isspace c) eqn:Hc; [done|]. by cbn [lead].
Qed.

Lemma runs_lstrip l : runs nonspace (lstrip l) = runs nonspace l.
Proof.
  induction l as [|c l IH]; [done|]. cbn [lstrip].
  destruct (isspace c) eqn:Hc; [|done].
  rewrite IH. cbn [runs]. unfold nonspace at 2. by rewrite Hc.
Qed.

Lemma strip_sub_ws l :
  strip (sub_ws false l) = join_words (runs nonspace l).
Proof.
  unfold strip. rewrite lstrip_sub_ws, rstrip_sub_ws, lead_lstrip, runs_lstrip.
  done.
Qed.
End NormalizeFacts.

Lemma normalize_spec text : _normalize text = spec_normalize text.
Proof.
  unfold _normalize, spec_normalize, str_lower.
  by rewrite chars_str, NormalizeFacts.strip_sub_ws.
Qed.

(** ** The phrase scores (evaluate.py) *)

Lemma phrase_hit_spec a phrase :
  phrase_hit a phrase = true <->
  _normalize phrase <> "" /\ occurs_in (_normalize phrase) a.
Proof.
  unfold phrase_hit. rewrite andb_true_iff, negb_true_iff, str_in_spec.
  rewrite <- not_true_iff_false, falsy_spec. done.
Qed.

Lemma count_hits_filter a phrases :
  count_hits a phrases = length (List.filter (phrase_hit a) phrases).
Proof.
  unfold count_hits.
  enough (H : forall n,
    fold_left (fun hits phrase => if phrase_hit a phrase then S hits else hits)
              phrases n = (n + length (List.filter (phrase_hit a) phrases))%nat)
    by apply (H 0%nat).
  induction phrases as [|p l IH]; intros n; simpl; [lia|].
  rewrite IH. destruct (phrase_hit a p); simpl; lia.
Qed.

Lemma count_hits_app a l1 l2 :
  count_hits a (l1 ++ l2) = (count_hits a l1 + count_hits a l2)%nat.
Proof. by rewrite !count_hits_filter, List.filter_app, length_app. Qed.

Lemma count_hits_le a phrases : (count_hits a phrases <= length phrases)%nat.
Proof. rewrite count_hits_filter. apply List.filter_length_le. Qed.

Lemma violations_count answer phrases :
  must_not_include_violations answer phrases = count_hits (_normalize answer) phrases.
Proof. by destruct phrases. Qed.

(** A phrase counts when its normal form is not empty and is a literal
    substring of the normal form of the answer. *)
Definition covered (answer phrase : string) : Prop :=
  spec_normalize phrase <> "" /\
  occurs_in (spec_normalize phrase) (spec_normalize answer).

#[global] Instance covered_dec answer phrase : Decision (covered answer phrase).
Proof. unfold covered. apply _. Defined.

(** The coverage score in the words of the specification *)
Definition CoverageScore (answer : string) (mustIncludePhrases : list string) : R :=
  match mustIncludePhrases with
  | [] => 1%R
  | _ => (INR (length (filter (covered answer) mustIncludePhrases))
          / INR (length mustIncludePhrases))%R
  end.

Lemma count_hits_covered answer phrases :
  count_hits (_normalize answer) phrases = length (filter (covered answer) phrases).
Proof.
  rewrite count_hits_filter.
  induction phrases as [|p l IH]; [done|].
  cbn [List.filter]. rewrite filter_cons.
  destruct (phrase_hit (_normalize answer) p) eqn:E.
  - apply phrase_hit_spec in E. rewrite !normalize_spec in E.
    rewrite decide_True by done. simpl. by rewrite IH.
  - rewrite decide_False; [done|]. intros Hc. unfold covered in Hc.
    rewrite <- !normalize_spec in Hc. apply phrase_hit_spec in Hc. congruence.
Qed.

(** C6. The coverage score is 1 on an empty requirement list, whatever the
    answer; on any list it is the score of the specification: the number of
    phrases with a non-empty normal form that occurs literally in the normal
    form of the answer, over the number of phrases; and it lies in [0,1]. *)
Theorem must_include_score_coverage (answer : string) (phrases : list string) :
  must_include_score answer [] = 1%R /\
  must_include_score answer phrases = CoverageScore answer phrases /\
  (0 <= must_include_score answer phrases <= 1)%R.
Proof.
  split; [done|]. split.
  - destruct phrases as [|p l]; [done|].
    unfold must_include_score, CoverageScore. by rewrite count_hits_covered.
  - destruct phrases as [|p l]; [simpl; lra|].
    unfold must_include_score.
    set (n := length (p :: l)).
    assert (Hn : (0 < INR n)%R) by (apply lt_0_INR; unfold n; simpl; lia).
    pose proof (count_hits_le (_normalize answer) (p :: l)) as Hle.
    apply le_INR in Hle. fold n in Hle.
    pose proof (pos_INR (count_hits (_normalize answer) (p :: l))) as H0.
    split.
    + apply Rmult_le_pos; [done|]. left. by apply Rinv_0_lt_compat.
    + apply (Rmult_le_reg_r (INR n)); [done|].
      unfold Rdiv. rewrite Rmult_assoc, Rinv_l by lra. lra.
Qed.

(** C7. No violation is counted on an empty list, nor when no phrase of the
    list occurs in the answer; appending phrases never lowers the count, and
    every appended phrase that occurs in the answer raises it by one. *)
Theorem must_not_include_violations_monotone (answer : string)
    (phrases more : list string) :
  must_not_include_violations answer [] = 0%nat /\
  ((forall p, p ∈ phrases -> _normalize p <> "" ->
              ~ occurs_in (_normalize p) (_normalize answer)) ->
   must_not_include_violations answer phrases = 0%nat) /\
  (must_not_include_violations answer phrases
   <= must_not_include_violations answer (phrases ++ more))%nat /\
  ((forall p, p ∈ more ->
      _normalize p <> "" /\ occurs_in (_normalize p) (_normalize answer)) ->
   must_not_include_violations answer (phrases ++ more)
   = (must_not_include_violations answer phrases + length more)%nat).
Proof.
  rewrite !violations_count, count_hits_app.
  split; [done|]. split; [|split; [lia|]].
  - intros Hno. rewrite count_hits_filter.
    induction phrases as [|p l IH]; [done|].
    cbn [List.filter].
    destruct (phrase_hit (_normalize answer) p) eqn:E.
    + apply phrase_hit_spec in E as [Hne Hocc].
      destruct (Hno p); [left | done | done].
    + apply IH. intros q Hq. apply Hno. by right.
  - intros Hall. f_equal. rewrite count_hits_filter.
    induction more as [|p l IH]; [done|].
    cbn [List.filter].
    assert (E : phrase_hit (_normalize answer) p = true).
    { apply phrase_hit_spec, Hall. left. }
    rewrite E. simpl. f_equal. apply IH. intros q Hq. apply Hall. by right.
Qed.

(** ** Loops that may raise *)

Lemma mapM_Ok {A B} (f : A -> result B) l k :
  mapM f l = Ok k <-> Forall2 (fun x y => f x = Ok y) l k.
Proof.
  revert k. induction l as [|x l IH]; intros k; simpl.
  - split; [intros [= <-]; constructor | by inversion 1].
  - split.
    + destruct (f x) as [y|e] eqn:Hx; simpl; [|done].
      destruct (mapM f l) as [ys|e] eqn:Hl; simpl; [|done].
      intros [= <-]. constructor; [done|]. by apply IH.
    + inversion 1 as [|? y ? ys Hx Hl]; subst. rewrite Hx. simpl.
      apply IH in Hl. rewrite Hl. done.
Qed.

Lemma mapM_total {A B} (f : A -> result B) l :
  Forall (fun x => exists y, f x = Ok y) l -> exists k, mapM f l = Ok k.
Proof.
  induction 1 as [|x l [y Hy] _ [k Hk]]; [by exists []|].
  exists (y :: k). simpl. rewrite Hy. simpl. rewrite Hk. done.
Qed.


(** ** Regression analysis (report.py) *)

Definition rows_of (lines : list EvalRow) : gmap string EvalRow :=
  foldl (fun rows row => <[row_id row := row]> rows) ∅ lines.

Lemma dom_foldl_insert lines (m : gmap string EvalRow) :
  dom (foldl (fun rows row => <[row_id row := row]> rows) m lines)
  = dom m ∪ list_to_set (row_id <$> lines).
Proof.
  revert m. induction lines as [|r l IH]; intros m; simpl.
  - set_solver.
  - rewrite IH, dom_insert_L. set_solver.
Qed.

Lemma dom_rows_of lines : dom (rows_of lines) = list_to_set (row_id <$> lines).
Proof. unfold rows_of. rewrite dom_foldl_insert. set_solver. Qed.

Lemma elem_of_dom_rows_of lines qid :
  qid ∈ dom (rows_of lines) <-> qid ∈ row_id <$> lines.
Proof. rewrite dom_rows_of. set_solver. Qed.

Lemma rows_of_empty lines : rows_of lines = ∅ <-> lines = [].
Proof.
  split; [|by intros ->].
  destruct lines as [|r l]; [done|]. intros H.
  assert (Hr : row_id r ∈ dom (rows_of (r :: l))).
  { apply elem_of_dom_rows_of. set_solver. }
  rewrite H in Hr. set_solver.
Qed.

Lemma load_eval_csv_Ok lines rows :
  load_eval_csv lines = Ok rows <-> lines <> [] /\ rows = rows_of lines.
Proof.
  unfold load_eval_csv. fold (rows_of lines). case_bool_decide as He.
  - apply rows_of_empty in He. split; [done | by intros []].
  - rewrite rows_of_empty in He. split; [by intros [= <-] | by intros [_ ->]].
Qed.

Lemma load_eval_csv_cases lines :
  load_eval_csv lines = Ok (rows_of lines) \/
  load_eval_csv lines = Raise (ValueError "No rows found").
Proof. unfold load_eval_csv. fold (rows_of lines). case_bool_decide; auto. Qed.

Lemma load_eval_csv_nil : load_eval_csv [] = Raise (ValueError "No rows found").
Proof. reflexivity. Qed.

(** The rows of a loaded table are lines of the file. *)
Lemma rows_of_lookup lines qid r :
  rows_of lines !! qid = Some r -> r ∈ lines /\ row_id r = qid.
Proof.
  unfold rows_of.
  enough (H : forall m : gmap string EvalRow,
    foldl (fun rows row => <[row_id row := row]> rows) m lines !! qid = Some r ->
    m !! qid = Some r \/ (r ∈ lines /\ row_id r = qid)).
  { intros Hl. destruct (H ∅ Hl) as [He|]; [by rewrite lookup_empty in He | done]. }
  induction lines as [|x l IH]; intros m; simpl; [by left|].
  intros Hl. destruct (IH _ Hl) as [Hm | [Hr Hid]].
  - destruct (decide (row_id x = qid)) as [E|E].
    + rewrite <- E, lookup_insert_eq in Hm. injection Hm as ->.
      right. split; [left | done].
    + rewrite lookup_insert_ne in Hm by done. by left.
  - right. split; [by right | done].
Qed.

Definition common_ids (old new : gmap string EvalRow) : list string :=
  merge_sort String.le (elements (dom old ∩ dom new)).

Lemma elem_of_common_ids old new qid :
  qid ∈ common_ids old new <-> qid ∈ dom old /\ qid ∈ dom new.
Proof.
  unfold common_ids. rewrite merge_sort_Permutation, elem_of_elements. set_solver.
Qed.

Lemma NoDup_common_ids old new : NoDup (common_ids old new).
Proof. unfold common_ids. rewrite merge_sort_Permutation. apply NoDup_elements. Qed.

Lemma delta_of_id old new qid d : delta_of old new qid = Ok d -> delta_id d = qid.
Proof.
  unfold delta_of, getkey, int.
  destruct (old !! qid) as [o|]; simpl; [|done].
  destruct (new !! qid) as [n|]; simpl; [|done].
  destruct (row_must_not_include_violations n); simpl; [|done].
  destruct (row_must_not_include_violations o); simpl; [|done].
  by intros [= <-].
Qed.

Lemma compare_runs_Ok old_csv new_csv c :
  compare_runs old_csv new_csv = Ok c ->
  old_csv <> [] /\ new_csv <> [] /\
  common_ids (rows_of old_csv) (rows_of new_csv) <> [] /\
  mapM (delta_of (rows_of old_csv) (rows_of new_csv))
       (common_ids (rows_of old_csv) (rows_of new_csv)) = Ok (deltas c) /\
  total_new_violations (summary c)
  = sum_Z (map (fun d => Z.max 0 (delta_violations d)) (deltas c)) /\
  count (summary c) = length (deltas c).
Proof.
  unfold compare_runs.
  destruct (load_eval_csv old_csv) as [old|e] eqn:Ho; simpl; [|done].
  destruct (load_eval_csv new_csv) as [new|e] eqn:Hn; simpl; [|done].
  apply load_eval_csv_Ok in Ho as [Ho ->]. apply load_eval_csv_Ok in Hn as [Hn ->].
  fold (common_ids (rows_of old_csv) (rows_of new_csv)).
  destruct (common_ids (rows_of old_csv) (rows_of new_csv)) as [|q qs] eqn:Hc; [done|].
  destruct (mapM _ (q :: qs)) as [ds|e] eqn:Hm; simpl; [|done].
  intros [= <-]. simpl. done.
Qed.

Lemma delta_ids old new ids ds :
  mapM (delta_of old new) ids = Ok ds -> delta_id <$> ds = ids.
Proof.
  intros H. apply mapM_Ok in H.
  induction H as [|q d ids ds Hd _ IH]; [done|].
  simpl. f_equal; [by eapply delta_of_id | done].
Qed.

Lemma delta_of_total (old_csv new_csv : list EvalRow) qid :
  (forall r, r ∈ (old_csv ++ new_csv)%list -> is_Some (row_must_not_include_violations r)) ->
  qid ∈ common_ids (rows_of old_csv) (rows_of new_csv) ->
  exists d, delta_of (rows_of old_csv) (rows_of new_csv) qid = Ok d.
Proof.
  intros Hwf Hq. apply elem_of_common_ids in Hq as [Ho Hn].
  apply elem_of_dom in Ho as [o Ho]. apply elem_of_dom in Hn as [n Hn].
  destruct (rows_of_lookup _ _ _ Ho) as [Hol _].
  destruct (rows_of_lookup _ _ _ Hn) as [Hnl _].
  destruct (Hwf o) as [ov Hov]; [set_solver|].
  destruct (Hwf n) as [nv Hnv]; [set_solver|].
  unfold delta_of, getkey. rewrite Ho, Hn. simpl. rewrite Hnv, Hov. simpl. eauto.
Qed.

Lemma compare_runs_total (old_csv new_csv : list EvalRow) :
  (exists qid, qid ∈ row_id <$> old_csv /\ qid ∈ row_id <$> new_csv) ->
  (forall r, r ∈ (old_csv ++ new_csv)%list -> is_Some (row_must_not_include_violations r)) ->
  exists c, compare_runs old_csv new_csv = Ok c.
Proof.
  intros (qid & Ho & Hn) Hwf.
  assert (Hc : qid ∈ common_ids (rows_of old_csv) (rows_of new_csv)).
  { apply elem_of_common_ids. by rewrite !elem_of_dom_rows_of. }
  destruct (mapM_total (delta_of (rows_of old_csv) (rows_of new_csv))
              (common_ids (rows_of old_csv) (rows_of new_csv))) as [ds Hds].
  { apply Forall_forall. intros q Hq. by apply delta_of_total. }
  unfold compare_runs.
  assert (Hlo : load_eval_csv old_csv = Ok (rows_of old_csv)).
  { apply load_eval_csv_Ok. split; [|done]. intros ->. set_solver. }
  assert (Hln : load_eval_csv new_csv = Ok (rows_of new_csv)).
  { apply load_eval_csv_Ok. split; [|done]. intros ->. set_solver. }
  rewrite Hlo, Hln. simpl. fold (common_ids (rows_of old_csv) (rows_of new_csv)).
  destruct (common_ids (rows_of old_csv) (rows_of new_csv)) as [|q qs] eqn:E.
  { set_solver. }
  rewrite Hds. simpl. eauto.
Qed.

(** C8. Two runs without a common question id make the comparison raise;
    a comparison that returns has exactly one delta for each id present in
    both runs and none for any other id; and it does return when the runs
    share an id and their violation cells are integers. *)
Theorem compare_runs_common_ids (old_csv new_csv : list EvalRow) :
  ((forall qid, ~ (qid ∈ row_id <$> old_csv /\ qid ∈ row_id <$> new_csv)) ->
   exists msg, compare_runs old_csv new_csv = Raise (ValueError msg)) /\
  (forall c, compare_runs old_csv new_csv = Ok c ->
     NoDup (delta_id <$> deltas c) /\
     forall qid, qid ∈ delta_id <$> deltas c <->
                 qid ∈ row_id <$> old_csv /\ qid ∈ row_id <$> new_csv) /\
  ((exists qid, qid ∈ row_id <$> old_csv /\ qid ∈ row_id <$> new_csv) ->
   (forall r, r ∈ (old_csv ++ new_csv)%list -> is_Some (row_must_not_include_violations r)) ->
   exists c, compare_runs old_csv new_csv = Ok c).
Proof.
  split; [|split].
  - intros Hno. unfold compare_runs.
    destruct (load_eval_csv_cases old_csv) as [-> | ->]; simpl; [|eauto].
    destruct (load_eval_csv_cases new_csv) as [-> | ->]; simpl; [|eauto].
    fold (common_ids (rows_of old_csv) (rows_of new_csv)).
    destruct (common_ids (rows_of old_csv) (rows_of new_csv)) as [|q qs] eqn:E; [eauto|].
    exfalso. apply (Hno q). rewrite <- !elem_of_dom_rows_of.
    apply elem_of_common_ids. rewrite E. left.
  - intros c Hc. apply compare_runs_Ok in Hc as (_ & _ & _ & Hm & _).
    apply delta_ids in Hm. rewrite Hm. split; [apply NoDup_common_ids|].
    intros qid. by rewrite elem_of_common_ids, !elem_of_dom_rows_of.
  - apply compare_runs_total.
Qed.

Lemma sum_R_zero {A} (f : A -> R) l :
  Forall (fun x => f x = 0%R) l -> sum_R (map f l) = 0%R.
Proof. induction 1 as [|x l Hx _ IH]; simpl; [done|]. rewrite Hx, IH. lra. Qed.

Lemma sum_Z_zero {A} (f : A -> Z) l :
  Forall (fun x => f x = 0%Z) l -> sum_Z (map f l) = 0%Z.
Proof. induction 1 as [|x l Hx _ IH]; simpl; [done|]. rewrite Hx, IH. lia. Qed.

Lemma round_half_even_IZR z : round_half_even (IZR z) = z.
Proof.
  unfold round_half_even. rewrite ZfloorZ.
  destruct (Rlt_dec (IZR z - IZR z) (1 / 2)) as [|Hn]; [done|].
  exfalso. apply Hn. lra.
Qed.

Lemma round_IZR z ndigits : round (IZR z) ndigits = IZR z.
Proof.
  unfold round.
  assert (Hp : (10 ^ ndigits)%R = IZR (10 ^ Z.of_nat ndigits)).
  { rewrite pow_IZR. done. }
  rewrite Hp, <- mult_IZR, round_half_even_IZR, mult_IZR.
  assert (Hpos : (IZR (10 ^ Z.of_nat ndigits) <> 0)%R).
  { rewrite <- Hp. apply pow_nonzero. lra. }
  by field.
Qed.

Definition zero_delta (d : Delta) : Prop :=
  delta_must_include d = 0%R /\ delta_grounding d = 0%R /\ delta_violations d = 0%Z.

Lemma delta_of_self rows qid d : delta_of rows rows qid = Ok d -> zero_delta d.
Proof.
  unfold delta_of, getkey, int.
  destruct (rows !! qid) as [o|]; simpl; [|done].
  destruct (row_must_not_include_violations o); simpl; [|done].
  intros [= <-]. unfold zero_delta. simpl. repeat split; [lra | lra | lia].
Qed.

(** C3 (as amended).  A run that loads, that is a table with at least one
    row, whose violation cells are integers, compared with itself: the
    comparison returns, there is a delta for every question id of the run,
    every delta is zero in its three components, and the summary shows zero
    averages and no new violation. *)
Theorem compare_runs_self (lines : list EvalRow) (run : gmap string EvalRow) :
  load_eval_csv lines = Ok run ->
  (forall qid r, run !! qid = Some r -> is_Some (row_must_not_include_violations r)) ->
  exists c,
    compare_runs lines lines = Ok c /\
    (forall qid, qid ∈ dom run <-> qid ∈ delta_id <$> deltas c) /\
    Forall zero_delta (deltas c) /\
    total_new_violations (summary c) = 0%Z /\
    avg_delta_must_include (summary c) = 0%R /\
    avg_delta_grounding (summary c) = 0%R /\
    count (summary c) = size run.
Proof.
  intros Hload Hwf. pose proof Hload as Hl.
  apply load_eval_csv_Ok in Hl as [Hne ->].
  set (run := rows_of lines) in *.
  assert (Htot : exists ds, mapM (delta_of run run) (common_ids run run) = Ok ds).
  { apply mapM_total, Forall_forall. intros q Hq.
    apply elem_of_common_ids in Hq as [Hq _]. apply elem_of_dom in Hq as [o Ho].
    destruct (Hwf q o Ho) as [v Hv].
    exists {| delta_id := q; delta_question := default "" (row_question o);
              delta_must_include := fnum (row_must_include_score o) 0
                                    - fnum (row_must_include_score o) 0;
              delta_grounding := fnum (row_grounding_score o) 0
                                 - fnum (row_grounding_score o) 0;
              delta_violations := v - v |}.
    unfold delta_of, getkey. rewrite Ho. simpl. rewrite Hv. done. }
  destruct Htot as [ds Hds].
  assert (Hzero : Forall zero_delta ds).
  { pose proof Hds as HF. apply mapM_Ok in HF. clear -HF.
    induction HF as [|q d qs ds Hd _ IH]; constructor; [|done].
    by eapply delta_of_self. }
  assert (Hids : delta_id <$> ds = common_ids run run) by by eapply delta_ids.
  assert (Hcne : common_ids run run <> []).
  { destruct lines as [|r l]; [done|]. intros E.
    assert (Hr : row_id r ∈ common_ids run run).
    { apply elem_of_common_ids. split; apply elem_of_dom_rows_of; set_solver. }
    rewrite E in Hr. set_solver. }
  eexists. split.
  { unfold compare_runs. rewrite Hload. simpl. fold run. fold (common_ids run run).
    destruct (common_ids run run) as [|q qs] eqn:E; [done|].
    rewrite Hds. simpl. reflexivity. }
  simpl. repeat split.
  - intros Hq. rewrite Hids. apply elem_of_common_ids. done.
  - rewrite Hids. intros Hq. by apply elem_of_common_ids in Hq as [Hq _].
  - done.
  - apply sum_Z_zero. eapply Forall_impl; [exact Hzero|].
    intros d (_ & _ & ->). done.
  - rewrite sum_R_zero.
    + unfold Rdiv. rewrite Rmult_0_l. apply (round_IZR 0).
    + eapply Forall_impl; [exact Hzero|]. by intros d (-> & _ & _).
  - rewrite sum_R_zero.
    + unfold Rdiv. rewrite Rmult_0_l. apply (round_IZR 0).
    + eapply Forall_impl; [exact Hzero|]. by intros d (_ & -> & _).
  - rewrite <- (length_fmap delta_id), Hids. unfold common_ids.
    rewrite merge_sort_Permutation.
    replace (dom run ∩ dom run) with (dom run) by set_solver.
    by rewrite <- size_dom.
Qed.

(** C3 as stated fails on the run without rows: loading it raises. *)
Lemma compare_runs_self_empty :
  load_eval_csv [] = Raise (ValueError "No rows found") /\
  compare_runs [] [] = Raise (ValueError "No rows found").
Proof. split; reflexivity. Qed.

(** ** argsort: a stable ascending sort of the indices *)

Section ArgsortFacts.
Context {K : Type} (leb : K -> K -> bool).
Hypothesis leb_total : forall x y, leb x y = true \/ leb y x = true.
Hypothesis leb_trans : forall x y z, leb x y = true -> leb y z = true -> leb x z = true.

(** [a] may stand before [b]: its key is not larger, and on equal keys its
    index is the smaller one. *)
Definition stable_le (a b : nat * K) : Prop :=
  leb (snd a) (snd b) = true /\ (leb (snd b) (snd a) = true -> (fst a < fst b)%nat).

Lemma insert_key_perm x l : insert_key leb x l ≡ₚ x :: l.
Proof.
  induction l as [|y l IH]; simpl; [done|].
  destruct (leb (snd x) (snd y)); [done|]. rewrite IH. apply Permutation_swap.
Qed.

Lemma sort_keys_perm l : sort_keys leb l ≡ₚ l.
Proof.
  induction l as [|x l IH]; simpl; [done|]. by rewrite insert_key_perm, IH.
Qed.

Lemma insert_key_sorted x l :
  Forall (fun y => (fst x < fst y)%nat) l ->
  StronglySorted stable_le l ->
  StronglySorted stable_le (insert_key leb x l).
Proof.
  intros Hidx Hs. induction Hs as [|y l Hs IH Hy]; simpl.
  - repeat constructor.
  - inversion Hidx as [|? ? Hxy Hxl]; subst.
    destruct (leb (snd x) (snd y)) eqn:E.
    + constructor; [by constructor|]. constructor; [by split|].
      apply Forall_forall. intros z Hz.
      rewrite Forall_forall in Hy, Hxl. destruct (Hy z Hz) as [Hyz _].
      split; [by eapply leb_trans | intros _; by apply Hxl].
    + constructor; [by apply IH|].
      rewrite insert_key_perm. constructor; [|done].
      split; [|by rewrite E]. by destruct (leb_total (snd x) (snd y)); [congruence|].
Qed.

Lemma sort_keys_sorted l :
  StronglySorted (fun a b => (fst a < fst b)%nat) l ->
  StronglySorted stable_le (sort_keys leb l).
Proof.
  induction 1 as [|x l Hs IH Hx]; simpl; [constructor|].
  apply insert_key_sorted; [|done]. by rewrite sort_keys_perm.
Qed.

Lemma imap_pair_sorted (keys : list K) n :
  StronglySorted (fun a b : nat * K => (fst a < fst b)%nat)
                 (imap (fun i k => (n + i, k)%nat) keys).
Proof.
  revert n. induction keys as [|k keys IH]; intros n; [constructor|].
  rewrite imap_cons. constructor.
  - rewrite (imap_ext _ (fun i k => (S n + i, k)%nat)); [apply IH|].
    intros i x _. simpl. f_equal. lia.
  - apply Forall_forall. intros [j x] Hj.
    apply elem_of_lookup_imap in Hj as (i & y & [= -> ->] & _). simpl. lia.
Qed.

(** Index [i] may stand before index [j] in the argsort of [keys]. *)
Definition idx_le (keys : list K) (i j : nat) : Prop :=
  exists ki kj, keys !! i = Some ki /\ keys !! j = Some kj /\
                leb ki kj = true /\ (leb kj ki = true -> (i < j)%nat).

Lemma argsort_perm keys : argsort leb keys ≡ₚ seq 0 (length keys).
Proof.
  unfold argsort. rewrite sort_keys_perm.
  change (map fst ?l) with (fst <$> l). rewrite fmap_imap.
  rewrite (imap_ext _ (fun j _ => j)) by done.
  by rewrite (imap_seq_0 keys (fun j => j)), list_fmap_id.
Qed.

Lemma StronglySorted_fmap_Forall {A B} (f : A -> B) (P : A -> Prop)
    (R1 : relation A) (R2 : relation B) l :
  (forall x y, P x -> P y -> R1 x y -> R2 (f x) (f y)) ->
  Forall P l -> StronglySorted R1 l -> StronglySorted R2 (map f l).
Proof.
  intros HR HP Hs. induction Hs as [|x l Hs IH Hx]; simpl; [constructor|].
  inversion HP as [|? ? Px Pl]; subst. constructor; [by apply IH|].
  rewrite Forall_forall in Hx, Pl. apply Forall_forall. intros y Hy.
  apply list_elem_of_fmap in Hy as (z & -> & Hz). apply HR; auto.
Qed.

Lemma argsort_sorted keys : StronglySorted (idx_le keys) (argsort leb keys).
Proof.
  unfold argsort.
  apply (StronglySorted_fmap_Forall fst (fun p => keys !! fst p = Some (snd p))
           stable_le).
  - intros [i ki] [j kj] Hi Hj [Hle Htie]. simpl in *. by exists ki, kj.
  - rewrite sort_keys_perm. apply Forall_forall. intros [i k] Hi.
    by apply elem_of_lookup_imap in Hi as (i' & k' & [= -> ->] & Hi).
  - apply sort_keys_sorted.
    rewrite (imap_ext _ (fun i k => (0 + i, k)%nat)) by done.
    apply imap_pair_sorted.
Qed.

Lemma argsort_length keys : length (argsort leb keys) = length keys.
Proof. by rewrite argsort_perm, length_seq. Qed.
End ArgsortFacts.

Lemma StronglySorted_rev {A} (R : relation A) l :
  StronglySorted R l -> StronglySorted (flip R) (rev l).
Proof.
  induction 1 as [|x l Hs IH Hx]; simpl; [constructor|].
  apply StronglySorted_app_2; [|done|repeat constructor].
  intros y z Hy Hz. apply list_elem_of_singleton in Hz as ->.
  rewrite Forall_forall in Hx. apply Hx.
  by apply list_elem_of_In, in_rev, list_elem_of_In.
Qed.

Lemma StronglySorted_take {A} (R : relation A) n l :
  StronglySorted R l -> StronglySorted R (take n l).
Proof.
  intros Hs. rewrite <- (take_drop n l) in Hs.
  by apply StronglySorted_app_1_l in Hs.
Qed.

(** ** Comparing reals *)

Lemma Rleb_le x y : Rleb x y = true <-> (x <= y)%R.
Proof. unfold Rleb. destruct (Rle_dec x y); split; done. Qed.

Lemma Rleb_total x y : Rleb x y = true \/ Rleb y x = true.
Proof. rewrite !Rleb_le. lra. Qed.

Lemma Rleb_trans x y z : Rleb x y = true -> Rleb y z = true -> Rleb x z = true.
Proof. rewrite !Rleb_le. lra. Qed.

(** ** The ranking of [retrieve] *)

Definition ranked_idx (sims : list R) (top_k : Z) : list nat :=
  take (Z.to_nat top_k) (rev (argsort Rleb sims)).

(** Index [i] may stand before index [j] in the ranking: its score is not
    smaller, and on equal scores it is the larger index. *)
Definition ranked_before (sims : list R) (i j : nat) : Prop :=
  exists si sj, sims !! i = Some si /\ sims !! j = Some sj /\
                (sj <= si)%R /\ (si = sj -> (j < i)%nat).

Lemma ranked_idx_sorted sims top_k :
  StronglySorted (ranked_before sims) (ranked_idx sims top_k).
Proof.
  apply StronglySorted_take.
  pose proof (StronglySorted_rev _ _
    (argsort_sorted Rleb Rleb_total Rleb_trans sims)) as Hs.
  eapply (StronglySorted_fmap_Forall (fun i => i) (fun _ => True)) in Hs.
  - rewrite map_id in Hs. exact Hs.
  - intros i j _ _ (sj & si & Hj & Hi & Hle & Htie). exists si, sj.
    apply Rleb_le in Hle. repeat split; try done.
    intros ->. apply Htie, Rleb_le. lra.
  - by apply Forall_forall.
Qed.



Lemma ranked_idx_bound sims top_k i :
  i ∈ ranked_idx sims top_k -> (i < length sims)%nat.
Proof.
  intros Hi. apply subseteq_take in Hi.
  rewrite <- Permutation_rev, (argsort_perm Rleb) in Hi.
  apply elem_of_seq in Hi. lia.
Qed.

Lemma ranked_idx_all sims top_k :
  (length sims <= Z.to_nat top_k)%nat ->
  ranked_idx sims top_k ≡ₚ seq 0 (length sims).
Proof.
  intros Hk. unfold ranked_idx. rewrite take_ge.
  - by rewrite <- Permutation_rev, (argsort_perm Rleb).
  - by rewrite length_rev, (argsort_length Rleb).
Qed.

(** ** Vectors: dot product, norm and cosine *)

Module VectorFacts.
Import Sklearn.

Definition nonneg (v : list R) : Prop := Forall (fun x => (0 <= x)%R) v.

Lemma dot_nil_l v : dot [] v = 0%R.
Proof. done. Qed.

Lemma dot_nil_r u : dot u [] = 0%R.
Proof. by destruct u. Qed.

Lemma dot_cons x u y v : dot (x :: u) (y :: v) = (x * y + dot u v)%R.
Proof. done. Qed.

Lemma dot_nonneg u v : nonneg u -> nonneg v -> (0 <= dot u v)%R.
Proof.
  intros Hu. revert v. induction Hu as [|x u Hx _ IH]; intros v Hv; [simpl; unfold dot; simpl; lra|].
  destruct Hv as [|y v Hy Hv]; [unfold dot; simpl; lra|].
  rewrite dot_cons. specialize (IH v Hv). nra.
Qed.



Lemma dot_scale (a b : R) (u v : list R) :
  dot (map (fun x => x / a)%R u) (map (fun x => x / b)%R v)
  = (dot u v * (/ a * / b))%R.
Proof.
  revert v. induction u as [|x u IH]; intros v; [unfold dot; simpl; lra|].
  destruct v as [|y v]; [unfold dot; simpl; lra|].
  simpl. rewrite !dot_cons, IH. unfold Rdiv. ring.
Qed.

Lemma row_norm_nonneg v : (0 <= row_norm v)%R.
Proof. apply sqrt_pos. Qed.


(** The divisor that [normalize] uses is positive. *)
Definition scale (v : list R) : R :=
  if Req_dec_T (row_norm v) 0 then 1%R else row_norm v.

Lemma normalize_scale v : normalize v = map (fun x => (x / scale v)%R) v.
Proof. done. Qed.

Lemma scale_pos v : (0 < scale v)%R.
Proof.
  unfold scale. destruct (Req_dec_T (row_norm v) 0); [lra|].
  pose proof (row_norm_nonneg v). lra.
Qed.

Lemma normalize_nonneg v : nonneg v -> nonneg (normalize v).
Proof.
  intros Hv. rewrite normalize_scale. pose proof (scale_pos v) as Hs.
  remember (scale v) as s eqn:Es. clear Es.
  induction Hv as [|x v Hx _ IH]; simpl; constructor; [|done].
  apply Rmult_le_pos; [done|]. left. by apply Rinv_0_lt_compat.
Qed.





Lemma cosine_similarity_row q D :
  concat (cosine_similarity [q] D)
  = map (fun d => dot (normalize q) (normalize d)) D.
Proof.
  unfold cosine_similarity. simpl. rewrite app_nil_r. by rewrite map_map.
Qed.

Lemma idf_ge_1 n d : (d <= n)%nat -> (1 <= idf n d)%R.
Proof.
  intros Hd. unfold idf. apply le_INR in Hd.
  pose proof (pos_INR d) as H0.
  assert (H1 : (1 <= (1 + INR n) / (1 + INR d))%R).
  { apply (Rmult_le_reg_r (1 + INR d)); [lra|].
    unfold Rdiv. rewrite Rmult_assoc, Rinv_l by lra. lra. }
  destruct H1 as [H1 | <-].
  - apply ln_increasing in H1; [|lra]. rewrite ln_1 in H1. lra.
  - rewrite ln_1. lra.
Qed.

Lemma df_le t analysed : (df t analysed <= length analysed)%nat.
Proof. apply List.filter_length_le. Qed.

Lemma weights_nonneg (cs ws : list R) :
  nonneg cs -> nonneg ws -> nonneg (zip_with Rmult cs ws).
Proof.
  intros Hc. revert ws. induction Hc as [|c cs Hc0 _ IH]; intros ws Hw; [constructor|].
  destruct Hw as [|w ws Hw0 Hw]; constructor; [nra | by apply IH].
Qed.

Lemma counts_nonneg vocab terms : nonneg (counts vocab terms).
Proof. apply Forall_forall. intros x Hx.
  apply list_elem_of_fmap in Hx as (t & -> & _). apply pos_INR. Qed.

Lemma tfidf_row_nonneg v terms :
  nonneg (idf_ v) -> nonneg (tfidf_row v terms).
Proof.
  intros Hi. apply normalize_nonneg, weights_nonneg; [apply counts_nonneg | done].
Qed.
End VectorFacts.

(** ** Empty and whitespace-only strings *)

(** The string is empty or made of whitespace only. *)
Definition blank (s : string) : Prop :=
  Forall (fun c => Text.isspace c = true) (chars s).

Module BlankFacts.
Import Text.

Lemma lstrip_nil l : lstrip l = [] <-> Forall (fun c => isspace c = true) l.
Proof.
  induction l as [|c l IH]; simpl; [by split; [constructor|]|].
  destruct (isspace c) eqn:Hc.
  - rewrite IH. split; [by constructor | by inversion 1].
  - split; [done | inversion 1; congruence].
Qed.

Lemma rstrip_nil l : rstrip l = [] <-> Forall (fun c => isspace c = true) l.
Proof.
  induction l as [|c l IH]; simpl; [by split; [constructor|]|].
  destruct (rstrip l) as [|r rs] eqn:Hr.
  - destruct (isspace c) eqn:Hc.
    + split; [intros _; constructor; [done | by apply IH] | done].
    + split; [done | inversion 1; congruence].
  - split; [done|]. inversion 1 as [|? ? _ Hl]; subst. by apply IH in Hl.
Qed.

Lemma strip_nil l : strip l = [] <-> Forall (fun c => isspace c = true) l.
Proof.
  unfold strip. rewrite rstrip_nil. split.
  - intros H. apply lstrip_nil. destruct (lstrip l) as [|c l'] eqn:E; [done|].
    exfalso. inversion H as [|? ? Hc _]; subst.
    pose proof (NormalizeFacts.lead_lstrip l) as Hl. rewrite E in Hl. simpl in Hl.
    congruence.
  - intros H. apply lstrip_nil in H. rewrite H. constructor.
Qed.
End BlankFacts.

Lemma str_strip_blank s : str_strip s = "" <-> blank s.
Proof.
  unfold str_strip, blank. rewrite <- BlankFacts.strip_nil.
  rewrite <- falsy_spec, falsy_str. done.
Qed.

Lemma falsy_str_strip s : falsy (str_strip s) = true <-> blank s.
Proof. by rewrite falsy_spec, str_strip_blank. Qed.

Lemma falsy_blank s : falsy s = true -> blank s.
Proof. rewrite falsy_spec. intros ->. constructor. Qed.

#[global] Instance blank_dec s : Decision (blank s).
Proof. unfold blank. apply _. Defined.

(** ** The retriever (retrieve.py) *)

Definition document_of (h : RetrievedDoc) : Document :=
  {| doc_id := hit_doc_id h; title := hit_title h; text := hit_text h |}.

Definition hit (d : Document) (s : R) : RetrievedDoc :=
  {| hit_doc_id := doc_id d; hit_title := title d; hit_text := text d; score := s |}.

Lemma document_of_hit d s : document_of (hit d s) = d.
Proof. by destruct d. Qed.

Lemma omap_lookup_seq {A} (l : list A) k :
  omap (fun i => l !! (i - k)%nat) (seq k (length l)) = l.
Proof.
  revert k. induction l as [|x l IH]; intros k; [done|].
  simpl. rewrite Nat.sub_diag. simpl. f_equal.
  rewrite <- (IH (S k)) at 2. apply list_omap_ext.
  apply Forall2_same_length_lookup_2; [done|].
  intros i a b Ha Hb. rewrite Ha in Hb. injection Hb as <-.
  apply lookup_seq in Ha as [-> _].
  by replace (S k + i - k)%nat with (S (S k + i - S k)) by lia.
Qed.

Section RetrieverFacts.
Variable STOP : list string.

Lemma fit_transform_Ok max_features raw_documents v m :
  Sklearn.fit_transform STOP max_features raw_documents = Ok (v, m) ->
  let analysed := map (Sklearn.analyze STOP) raw_documents in
  concat analysed <> [] /\
  m = map (Sklearn.tfidf_row v) analysed /\
  Sklearn.idf_ v = map (fun t => Sklearn.idf (length raw_documents) (Sklearn.df t analysed))
               (Sklearn.vocabulary_ v).
Proof.
  unfold Sklearn.fit_transform. intros H.
  destruct max_features as [mf|]; simpl in H.
  - destruct (mf <=? 0)%Z; simpl in H; [done|].
    case_bool_decide; [done|]. by injection H as <- <-.
  - case_bool_decide; [done|]. by injection H as <- <-.
Qed.

Lemma fit_transform_total max_features raw_documents :
  (forall mf, max_features = Some mf -> (0 < mf)%Z) ->
  concat (map (Sklearn.analyze STOP) raw_documents) <> [] ->
  exists fitted, Sklearn.fit_transform STOP max_features raw_documents = Ok fitted.
Proof.
  intros Hmf Hne. unfold Sklearn.fit_transform.
  destruct max_features as [mf|]; simpl.
  - specialize (Hmf mf eq_refl). destruct (Z.leb_spec mf 0); [lia|]. simpl.
    rewrite bool_decide_false by done. eauto.
  - rewrite bool_decide_false by done. eauto.
Qed.

Lemma fitted_idf_nonneg max_features raw_documents v m :
  Sklearn.fit_transform STOP max_features raw_documents = Ok (v, m) ->
  VectorFacts.nonneg (Sklearn.idf_ v).
Proof.
  intros H. apply fit_transform_Ok in H as (_ & _ & ->).
  apply Forall_forall. intros x Hx.
  apply list_elem_of_fmap in Hx as (t & -> & _).
  pose proof (VectorFacts.idf_ge_1 (length raw_documents)
    (Sklearn.df t (map (Sklearn.analyze STOP) raw_documents))) as Hi.
  pose proof (VectorFacts.df_le t (map (Sklearn.analyze STOP) raw_documents)) as Hd.
  rewrite length_map in Hd. specialize (Hi Hd). lra.
Qed.

(** What the constructor establishes *)
Record built (docs : list Document) (self : TfidfRetriever) : Prop := {
  built_docs : _docs self = docs;
  built_rows : length (_doc_matrix self) = length docs;
  built_idf : VectorFacts.nonneg (Sklearn.idf_ (_vectorizer self));
  built_matrix : Forall VectorFacts.nonneg (_doc_matrix self)
}.

Lemma init_built docs max_features self :
  TfidfRetriever_init STOP docs max_features = Ok self -> built docs self.
Proof.
  unfold TfidfRetriever_init. destruct docs as [|d docs]; [done|].
  destruct (Sklearn.fit_transform _ _ _) as [[v m]|e] eqn:Hf; simpl; [|done].
  intros [= <-]. pose proof (fitted_idf_nonneg _ _ _ _ Hf) as Hidf.
  apply fit_transform_Ok in Hf as (_ & -> & _).
  split; cbn [_docs _doc_matrix _vectorizer fst snd];
    [done | by rewrite !length_map | done |].
  apply Forall_forall. intros r Hr.
  apply list_elem_of_fmap in Hr as (terms & -> & _).
  by apply VectorFacts.tfidf_row_nonneg.
Qed.

Lemma init_total docs max_features :
  docs <> [] -> (0 < max_features)%Z ->
  concat (map (fun d => Sklearn.analyze STOP (title d ++ newline ++ text d)) docs)
    <> [] ->
  exists self, TfidfRetriever_init STOP docs max_features = Ok self.
Proof.
  intros Hd Hmf Hv. unfold TfidfRetriever_init. destruct docs as [|d docs]; [done|].
  destruct (fit_transform_total (Some max_features)
    (map (fun d => title d ++ newline ++ text d) (d :: docs))) as [fitted Hf].
  - by intros mf [= <-].
  - by rewrite map_map.
  - rewrite Hf. simpl. eauto.
Qed.

Lemma similarities_row self query :
  similarities STOP self query
  = map (fun d => Sklearn.dot
                    (Sklearn.normalize
                       (Sklearn.tfidf_row (_vectorizer self)
                                          (Sklearn.analyze STOP query)))
                    (Sklearn.normalize d))
        (_doc_matrix self).
Proof. unfold similarities. simpl. apply VectorFacts.cosine_similarity_row. Qed.

Lemma similarities_length docs self query :
  built docs self -> length (similarities STOP self query) = length docs.
Proof. intros Hb. rewrite similarities_row, length_map. apply Hb. Qed.


(** The hit that [retrieve] builds for document index [idx] *)
Definition hit_at (self : TfidfRetriever) (sims : list R) (idx : nat)
  : result RetrievedDoc :=
  d ← getitem (_docs self) idx;
  s ← getitem sims idx;
  Ok (hit d s).

Lemma hit_at_Ok self sims idx h :
  hit_at self sims idx = Ok h <->
  exists d s, _docs self !! idx = Some d /\ sims !! idx = Some s /\ h = hit d s.
Proof.
  unfold hit_at, getitem. split.
  - destruct (_docs self !! idx) as [d|]; simpl; [|done].
    destruct (sims !! idx) as [s|]; simpl; [|done].
    intros [= <-]. eauto.
  - intros (d & s & -> & -> & ->). done.
Qed.

Lemma retrieve_valid self query top_k :
  ~ blank query -> (0 < top_k)%Z ->
  retrieve STOP self query top_k
  = mapM (hit_at self (similarities STOP self query))
         (ranked_idx (similarities STOP self query) top_k).
Proof.
  intros Hq Hk. unfold retrieve.
  destruct (falsy query) eqn:E1; [by apply falsy_blank in E1|].
  destruct (falsy (str_strip query)) eqn:E2; [by apply falsy_str_strip in E2|].
  simpl. destruct (Z.leb_spec top_k 0); [lia|]. done.
Qed.

Lemma retrieve_total docs self query top_k :
  built docs self -> ~ blank query -> (0 < top_k)%Z ->
  exists hits,
    retrieve STOP self query top_k = Ok hits /\
    Forall2 (fun idx h => hit_at self (similarities STOP self query) idx = Ok h)
            (ranked_idx (similarities STOP self query) top_k) hits.
Proof.
  intros Hb Hq Hk. rewrite retrieve_valid by done.
  destruct (mapM_total (hit_at self (similarities STOP self query))
              (ranked_idx (similarities STOP self query) top_k)) as [hits Hh].
  - apply Forall_forall. intros i Hi. apply ranked_idx_bound in Hi.
    destruct (lookup_lt_is_Some_2 (similarities STOP self query) i Hi) as [s Hs].
    rewrite (similarities_length docs) in Hi by done.
    destruct Hb as [Hd _ _ _]. rewrite <- Hd in Hi.
    destruct (lookup_lt_is_Some_2 (_docs self) i Hi) as [d Hdi].
    exists (hit d s). apply hit_at_Ok. eauto.
  - exists hits. split; [done|]. by apply mapM_Ok.
Qed.
End RetrieverFacts.

Lemma StronglySorted_Forall2 {A B} (P : A -> B -> Prop)
    (R1 : relation A) (R2 : relation B) l k :
  (forall x1 y1 x2 y2, P x1 y1 -> P x2 y2 -> R1 x1 x2 -> R2 y1 y2) ->
  Forall2 P l k -> StronglySorted R1 l -> StronglySorted R2 k.
Proof.
  intros HR HF. induction HF as [|x y l k Hxy HF IH]; intros Hs; [constructor|].
  apply StronglySorted_cons in Hs as [Hx Hs]. constructor; [by apply IH|].
  rewrite Forall_forall in Hx. apply Forall_forall. intros y' Hy'.
  apply list_elem_of_lookup in Hy' as [i Hi].
  destruct (Forall2_lookup_r _ _ _ _ _ HF Hi) as (x' & Hx' & Hxy').
  eapply HR; [exact Hxy | exact Hxy' |]. apply Hx. by eapply list_elem_of_lookup_2.
Qed.


Section RetrieveTheorems.
Variable STOP : list string.

Lemma hits_documents self sims idxs hits :
  Forall2 (fun idx h => hit_at self sims idx = Ok h) idxs hits ->
  omap (fun i => _docs self !! i) idxs = document_of <$> hits.
Proof.
  induction 1 as [|i h idxs hits Hh _ IH]; [done|].
  apply hit_at_Ok in Hh as (d & s & Hd & _ & ->).
  simpl. rewrite Hd. simpl. rewrite document_of_hit. by f_equal.
Qed.

(** C5. On a built index, [retrieve] raises exactly when the query is empty
    or whitespace-only or [top_k] is not positive; otherwise it returns. *)
Theorem retrieve_raises_iff (docs : list Document) (max_features : Z)
    (self : TfidfRetriever) (query : string) (top_k : Z) :
  TfidfRetriever_init STOP docs max_features = Ok self ->
  ((exists e, retrieve STOP self query top_k = Raise e)
   <-> blank query \/ (top_k <= 0)%Z) /\
  (~ blank query -> (0 < top_k)%Z ->
   exists hits, retrieve STOP self query top_k = Ok hits).
Proof.
  intros Hinit. apply init_built in Hinit.
  assert (Htot : ~ blank query -> (0 < top_k)%Z ->
                 exists hits, retrieve STOP self query top_k = Ok hits).
  { intros Hq Hk.
    destruct (retrieve_total STOP docs self query top_k) as (hits & Hr & _); eauto. }
  split; [|done]. split.
  - intros [e He]. destruct (decide (blank query)) as [|Hq]; [by left|].
    destruct (Z.le_gt_cases top_k 0) as [|Hk]; [by right|].
    destruct (Htot Hq Hk) as [hits Hh]. congruence.
  - intros Hbad. unfold retrieve.
    destruct (falsy query) eqn:E1; simpl; [eauto|].
    destruct (falsy (str_strip query)) eqn:E2; simpl; [eauto|].
    destruct Hbad as [Hq | Hk].
    + apply falsy_str_strip in Hq. congruence.
    + destruct (Z.leb_spec top_k 0); [eauto | lia].
Qed.

(** C4. With [top_k] larger than the collection, [retrieve] returns without
    raising, and its hits are the documents of the collection, each once. *)
Theorem retrieve_all (docs : list Document) (max_features : Z)
    (self : TfidfRetriever) (query : string) (top_k : Z) :
  TfidfRetriever_init STOP docs max_features = Ok self ->
  ~ blank query ->
  (Z.of_nat (length docs) < top_k)%Z ->
  exists hits,
    retrieve STOP self query top_k = Ok hits /\
    length hits = length docs /\
    document_of <$> hits ≡ₚ docs.
Proof.
  intros Hinit Hq Hk. apply init_built in Hinit as Hb.
  destruct (retrieve_total STOP docs self query top_k) as (hits & Hr & HF);
    [done | done | lia |].
  exists hits. split; [done|].
  pose proof (similarities_length STOP docs self query Hb) as Hlen.
  assert (Hperm : ranked_idx (similarities STOP self query) top_k
                  ≡ₚ seq 0 (length docs)).
  { rewrite <- Hlen. apply ranked_idx_all. lia. }
  split.
  - apply Forall2_length in HF. rewrite <- HF, Hperm. apply length_seq.
  - rewrite <- (hits_documents _ _ _ _ HF), Hperm.
    destruct Hb as [-> _ _ _].
    rewrite (list_omap_ext _ (fun i => docs !! (i - 0)%nat) _ (seq 0 (length docs))).
    + by rewrite omap_lookup_seq.
    + apply Forall_Forall2_diag, Forall_forall. intros i _. by rewrite Nat.sub_0_r.
Qed.


End RetrieveTheorems.

(** ** Grounding (evaluate.py) *)

(** The clamp at the end of [grounding_score] *)
Definition clamp01 (sim : R) : R :=
  if Rlt_dec sim 0 then 0%R else if Rlt_dec 1 sim then 1%R else sim.

Lemma clamp01_bounds sim : (0 <= clamp01 sim <= 1)%R.
Proof. unfold clamp01. destruct (Rlt_dec sim 0), (Rlt_dec 1 sim); lra. Qed.

Section GroundingFacts.
Variable STOP : list string.

Definition empty_vocabulary : exn :=
  ValueError "empty vocabulary; perhaps the documents only contain stop words".

Lemma grounding_score_blank answer context :
  blank answer \/ blank context -> grounding_score STOP answer context = Ok 0%R.
Proof.
  intros Hb. unfold grounding_score.
  destruct (falsy (str_strip answer)) eqn:Ea; [done|].
  destruct (falsy (str_strip context)) eqn:Ec; [done|].
  destruct Hb as [Hb | Hb]; apply falsy_str_strip in Hb; congruence.
Qed.

Lemma grounding_score_no_terms answer context :
  ~ blank answer -> ~ blank context ->
  Sklearn.analyze STOP (str_strip answer) = [] ->
  Sklearn.analyze STOP (str_strip context) = [] ->
  grounding_score STOP answer context = Raise empty_vocabulary.
Proof.
  intros Ha Hc Hta Htc. unfold grounding_score.
  destruct (falsy (str_strip answer)) eqn:Ea; [by apply falsy_str_strip in Ea|].
  destruct (falsy (str_strip context)) eqn:Ec; [by apply falsy_str_strip in Ec|].
  simpl. unfold Sklearn.fit_transform. simpl. rewrite Hta, Htc. done.
Qed.

Lemma grounding_score_terms answer context :
  ~ blank answer -> ~ blank context ->
  (Sklearn.analyze STOP (str_strip answer)
     ++ Sklearn.analyze STOP (str_strip context))%list <> [] ->
  exists v,
    Sklearn.fit_transform STOP None [str_strip answer; str_strip context]
    = Ok (v, [Sklearn.tfidf_row v (Sklearn.analyze STOP (str_strip answer));
              Sklearn.tfidf_row v (Sklearn.analyze STOP (str_strip context))]) /\
    grounding_score STOP answer context
    = Ok (clamp01 (Sklearn.dot
            (Sklearn.normalize
               (Sklearn.tfidf_row v (Sklearn.analyze STOP (str_strip answer))))
            (Sklearn.normalize
               (Sklearn.tfidf_row v (Sklearn.analyze STOP (str_strip context)))))).
Proof.
  intros Ha Hc Hne.
  destruct (fit_transform_total STOP None [str_strip answer; str_strip context])
    as [[v m] Hf]; [done | by simpl; rewrite app_nil_r |].
  pose proof (fit_transform_Ok STOP _ _ _ _ Hf) as (_ & Hm & _). simpl in Hm.
  subst m. exists v. split; [done|]. unfold grounding_score.
  destruct (falsy (str_strip answer)) eqn:Ea; [by apply falsy_str_strip in Ea|].
  destruct (falsy (str_strip context)) eqn:Ec; [by apply falsy_str_strip in Ec|].
  cbn [orb]. rewrite Hf. cbn [mbind result_bind snd take drop].
  rewrite VectorFacts.cosine_similarity_row. cbn [map getitem lookup list_lookup].
  unfold clamp01. cbn [mbind result_bind].
  set (sim := Sklearn.dot _ _).
  by destruct (Rlt_dec sim 0), (Rlt_dec 1 sim).
Qed.

(** Whenever [grounding_score] returns, the score lies in [0,1]. *)
Lemma grounding_score_bounds answer context g :
  grounding_score STOP answer context = Ok g -> (0 <= g <= 1)%R.
Proof.
  intros Hg.
  destruct (decide (blank answer)) as [Ha|Ha].
  { rewrite grounding_score_blank in Hg by auto. injection Hg as <-. lra. }
  destruct (decide (blank context)) as [Hc|Hc].
  { rewrite grounding_score_blank in Hg by auto. injection Hg as <-. lra. }
  destruct (Sklearn.analyze STOP (str_strip answer)
            ++ Sklearn.analyze STOP (str_strip context))%list eqn:E.
  - apply app_eq_nil in E as [E1 E2].
    by rewrite grounding_score_no_terms in Hg.
  - destruct (grounding_score_terms answer context) as (v & _ & Hs);
      [done | done | by rewrite E |].
    rewrite Hs in Hg. injection Hg as <-. apply clamp01_bounds.
Qed.
End GroundingFacts.

Module SelfSimilarity.
Import Sklearn VectorFacts.

Lemma zip_with_map_same {A} (f g : A -> R) l :
  zip_with Rmult (map f l) (map g l) = map (fun t => (f t * g t)%R) l.
Proof. induction l as [|x l IH]; simpl; [done|]. by rewrite IH. Qed.





Lemma elem_of_sorted_features analysed w :
  w ∈ sorted_features analysed <-> w ∈ concat analysed.
Proof.
  unfold sorted_features. by rewrite merge_sort_Permutation, elem_of_remove_dups.
Qed.
End SelfSimilarity.

Section GroundingSelf.
Variable STOP : list string.

Lemma fit_transform_vocabulary max_features raw_documents v m :
  Sklearn.fit_transform STOP max_features raw_documents = Ok (v, m) ->
  Sklearn.vocabulary_ v
  = Sklearn.limit_features (Z.to_nat <$> max_features)
      (map (Sklearn.analyze STOP) raw_documents)
      (Sklearn.sorted_features (map (Sklearn.analyze STOP) raw_documents)).
Proof.
  unfold Sklearn.fit_transform. intros H.
  destruct max_features as [mf|]; simpl in H.
  - destruct (mf <=? 0)%Z; simpl in H; [done|].
    case_bool_decide; [done|]. by injection H as <- <-.
  - case_bool_decide; [done|]. by injection H as <- <-.
Qed.

End GroundingSelf.

(** ** Rounding *)




(** ** The run table (evaluate.py) *)

Section EvaluateRun.
Variable STOP : list string.




End EvaluateRun.

(** ** Texts without a term *)

Section NoTerms.
Variable STOP : list string.

Lemma stop_word w : w ∈ STOP -> existsb (String.eqb w) STOP = true.
Proof.
  intros Hw. apply existsb_exists. exists w.
  split; [by apply list_elem_of_In | apply String.eqb_refl].
Qed.

Lemma not_blank_strip s : str_strip s <> "" -> ~ blank s.
Proof. intros H Hb. by apply str_strip_blank in Hb. Qed.

(** C2 fails on the code: a text that is not blank but has no term, here
    "N/A" whose two words are single letters, makes [grounding_score]
    raise where a score of 1 is claimed. *)
Theorem grounding_score_self_raises :
  ~ blank "N/A" /\
  grounding_score STOP "N/A" "N/A" = Raise empty_vocabulary.
Proof.
  assert (Hb : ~ blank "N/A") by (apply not_blank_strip; by vm_compute).
  split; [done|]. by apply grounding_score_no_terms.
Qed.

(** C9. For some answer and context that are not blank, [grounding_score]
    raises instead of returning a score; a text made of the stop words
    "the", "of" and "and" is such a text. *)
Theorem grounding_score_raises :
  (exists answer context,
      ~ blank answer /\ ~ blank context /\
      grounding_score STOP answer context = Raise empty_vocabulary) /\
  ("the" ∈ STOP -> "of" ∈ STOP -> "and" ∈ STOP ->
   ~ blank "the of and" /\
   grounding_score STOP "the of and" "the of and" = Raise empty_vocabulary).
Proof.
  split.
  - exists "?", "a b c".
    assert (H1 : ~ blank "?") by (apply not_blank_strip; by vm_compute).
    assert (H2 : ~ blank "a b c") by (apply not_blank_strip; by vm_compute).
    split; [done|]. split; [done|]. by apply grounding_score_no_terms.
  - intros Hthe Hof Hand.
    assert (Hb : ~ blank "the of and") by (apply not_blank_strip; by vm_compute).
    split; [done|].
    assert (Ht : Sklearn.analyze STOP (str_strip "the of and") = []).
    { unfold Sklearn.analyze, Sklearn.word_ngrams.
      replace (Sklearn.tokenize (str_strip "the of and"))
        with ["the"; "of"; "and"] by (by vm_compute).
      cbn [List.filter]. by rewrite !stop_word. }
    by apply grounding_score_no_terms.
Qed.
End NoTerms.

(** ** A small collection *)

(** Three entries of the stop-word table; no other entry occurs in the
    texts below. *)
Definition stop_sample : list string := ["the"; "of"; "and"].

Definition d0 : Document := {| doc_id := "d0"; title := "alpha"; text := "beta gamma" |}.
Definition d1 : Document := {| doc_id := "d1"; title := "delta"; text := "epsilon" |}.

Lemma grounding_score_raises_witness :
  ~ blank "the of and" /\
  grounding_score stop_sample "the of and" "the of and" = Raise empty_vocabulary.
Proof.
  apply (grounding_score_raises stop_sample);
    unfold stop_sample; rewrite !elem_of_cons; auto.
Defined.

Module ZeroRow.
Import Sklearn VectorFacts.





End ZeroRow.

Section NoMatch.
Variable STOP : list string.


End NoMatch.



Lemma sample_init :
  exists self, TfidfRetriever_init stop_sample [d0; d1] 5000 = Ok self.
Proof. apply init_total; [done | lia | by vm_compute]. Qed.

Lemma sample_not_blank : ~ blank "omega".
Proof. apply not_blank_strip. by vm_compute. Qed.


(** ** The theorems at concrete inputs *)


Lemma retrieve_all_witness :
  exists self hits,
    TfidfRetriever_init stop_sample [d0; d1] 5000 = Ok self /\
    retrieve stop_sample self "omega" 5 = Ok hits /\
    length hits = 2%nat /\
    document_of <$> hits ≡ₚ [d0; d1].
Proof.
  destruct sample_init as [self Hinit].
  destruct (retrieve_all stop_sample [d0; d1] 5000 self "omega" 5 Hinit
              sample_not_blank ltac:(simpl; lia))
    as (hits & Hr & Hlen & Hperm).
  exists self, hits. repeat split; assumption.
Defined.

Lemma retrieve_raises_iff_witness :
  exists self,
    TfidfRetriever_init stop_sample [d0; d1] 5000 = Ok self /\
    (exists e, retrieve stop_sample self "   " 3 = Raise e) /\
    (exists e, retrieve stop_sample self "omega" 0 = Raise e) /\
    (exists hits, retrieve stop_sample self "omega" 3 = Ok hits).
Proof.
  destruct sample_init as [self Hinit]. exists self. split; [exact Hinit|].
  split; [|split].
  - apply (retrieve_raises_iff stop_sample [d0; d1] 5000 self "   " 3 Hinit).
    left. apply str_strip_blank. reflexivity.
  - apply (retrieve_raises_iff stop_sample [d0; d1] 5000 self "omega" 0 Hinit).
    right. lia.
  - apply (retrieve_raises_iff stop_sample [d0; d1] 5000 self "omega" 3 Hinit);
      [apply sample_not_blank | lia].
Defined.

Definition row_q1 : EvalRow :=
  {| row_id := "q1"; row_question := Some "Why HTTP 429?";
     row_must_include_score := Some 1%R; row_grounding_score := Some (1 / 2)%R;
     row_must_not_include_violations := Some 2%Z |}.

Definition row_q2 : EvalRow :=
  {| row_id := "q2"; row_question := Some "Why a timeout?";
     row_must_include_score := Some 0%R; row_grounding_score := Some (1 / 4)%R;
     row_must_not_include_violations := Some 0%Z |}.

Lemma compare_runs_self_witness :
  exists c,
    compare_runs [row_q1; row_q2] [row_q1; row_q2] = Ok c /\
    Forall zero_delta (deltas c) /\
    total_new_violations (summary c) = 0%Z.
Proof.
  destruct (compare_runs_self [row_q1; row_q2] (rows_of [row_q1; row_q2]))
    as (c & Hc & _ & Hz & Hv & _).
  - apply load_eval_csv_Ok. split; [discriminate | reflexivity].
  - intros qid r Hr. apply rows_of_lookup in Hr as [Hr _].
    apply elem_of_cons in Hr as [-> | Hr]; [by eexists|].
    apply list_elem_of_singleton in Hr as ->. by eexists.
  - exists c. repeat split; assumption.
Defined.

Lemma compare_runs_common_ids_witness :
  (exists msg, compare_runs [row_q1] [row_q2] = Raise (ValueError msg)) /\
  (exists c, compare_runs [row_q1; row_q2] [row_q2] = Ok c).
Proof.
  split.
  - apply (compare_runs_common_ids [row_q1] [row_q2]).
    intros qid [H1 H2].
    apply list_elem_of_singleton in H1. apply list_elem_of_singleton in H2.
    simpl in *. congruence.
  - apply (compare_runs_common_ids [row_q1; row_q2] [row_q2]).
    + exists "q2". split; [right; left | left].
    + intros r Hr. cbn [app] in Hr. rewrite !elem_of_cons in Hr.
      destruct Hr as [-> | [-> | [-> | Hr]]]; [by eexists.. |].
      by apply elem_of_nil in Hr.
Defined.

Lemma must_not_include_violations_monotone_witness :
  must_not_include_violations "Use exponential backoff." ["retry"] = 0%nat /\
  must_not_include_violations "Use exponential backoff."
    (["retry"] ++ ["Exponential  Backoff"; "USE"]) = 2%nat.
Proof.
  destruct (must_not_include_violations_monotone "Use exponential backoff."
              ["retry"] ["Exponential  Backoff"; "USE"]) as (_ & H0 & _ & H1).
  assert (E0 : must_not_include_violations "Use exponential backoff." ["retry"]
               = 0%nat).
  { apply H0. intros p Hp _ Hocc. apply list_elem_of_singleton in Hp as ->.
    apply str_in_spec in Hocc. vm_compute in Hocc. discriminate. }
  split; [exact E0|]. rewrite H1, E0; [reflexivity|].
  intros p Hp. rewrite !elem_of_cons in Hp.
  destruct Hp as [-> | [-> | Hp]].
  - split; [by vm_compute | apply str_in_spec; by vm_compute].
  - split; [by vm_compute | apply str_in_spec; by vm_compute].
  - apply elem_of_nil in Hp. destruct Hp.
Defined.



(** ** The scenarios of the specification *)

Example normalize_ex :
  _normalize "  Use   Exponential
 BACKOFF " = "use exponential backoff".
Proof. by vm_compute. Qed.

Example violations_ex :
  must_not_include_violations "Use exponential   backoff."
    ["Exponential Backoff"; "retry"; "  "; "use"] = 2%nat.
Proof. by vm_compute. Qed.

Example coverage_scenario :
  must_include_score "Retry with exponential backoff." ["exponential backoff"] = 1%R
  /\ must_not_include_violations "Retry with exponential backoff."
       ["exponential backoff"] = 1%nat.
Proof.
  split; [|by vm_compute]. unfold must_include_score.
  replace (count_hits _ _) with 1%nat by (by vm_compute). simpl. lra.
Qed.

Example tokenize_ex :
  Sklearn.analyze stop_sample "The rate of HTTP 429, and I"
  = ["rate"; "http"; "429"; "rate http"; "http 429"].
Proof. by vm_compute. Qed.

Example argsort_ex : argsort Z.leb [3; 1; 2; 1]%Z = [1; 3; 2; 0]%nat.
Proof. by vm_compute. Qed.

(** * Further properties of the code *)

(** ** Normal forms (evaluate.py) *)

Module CharFacts.
Import Text.

Lemma lower_char_idem c : lower_char (lower_char c) = lower_char c.
Proof. by destruct c as [[] [] [] [] [] [] [] []]. Qed.

Lemma isspace_lower_char c : isspace (lower_char c) = isspace c.
Proof. by destruct c as [[] [] [] [] [] [] [] []]. Qed.


Lemma lower_idem l : lower (lower l) = lower l.
Proof.
  unfold lower. rewrite map_map. apply map_ext. intros c. apply lower_char_idem.
Qed.

Lemma lower_fixed l : Forall (fun c => lower_char c = c) (lower l).
Proof.
  apply Forall_forall. intros c Hc. apply list_elem_of_fmap in Hc as (c' & -> & _).
  apply lower_char_idem.
Qed.

Lemma lower_of_fixed l : Forall (fun c => lower_char c = c) l -> lower l = l.
Proof.
  unfold lower. induction 1 as [|c l Hc _ IH]; simpl; [done|]. by rewrite Hc, IH.
Qed.

(** The characters of the runs of a text are characters of the text, and
    kept ones. *)
Lemma runs_Forall (keep : ascii -> bool) (P : ascii -> Prop) l :
  Forall P l -> Forall (Forall P) (runs keep l).
Proof.
  induction 1 as [|c l Hc Hl IH]; [constructor|].
  cbn [runs]. destruct (keep c); [|done].
  destruct l as [|c' l']; [by repeat constructor|].
  destruct (keep c').
  - destruct (runs keep (c' :: l')) as [|r rs]; [by repeat constructor|].
    inversion IH; subst. constructor; [by constructor | done].
  - constructor; [by repeat constructor | done].
Qed.

Lemma runs_kept (keep : ascii -> bool) l :
  Forall (Forall (fun c => keep c = true)) (runs keep l).
Proof.
  induction l as [|c l IH]; [constructor|].
  cbn [runs]. destruct (keep c) eqn:Hc; [|done].
  destruct l as [|c' l']; [by repeat constructor|].
  destruct (keep c').
  - destruct (runs keep (c' :: l')) as [|r rs]; [by repeat constructor|].
    inversion IH; subst. constructor; [by constructor | done].
  - constructor; [by repeat constructor | done].
Qed.

Lemma join_words_Forall (P : ascii -> Prop) ws :
  P " "%char -> Forall (Forall P) ws -> Forall P (join_words ws).
Proof.
  intros Hsp. induction 1 as [|w ws Hw Hws IH]; [constructor|].
  cbn [join_words]. destruct ws as [|w' ws']; [done|].
  apply Forall_app. split; [done|]. by constructor.
Qed.

(** Splitting the joined words gives the words back. *)
Lemma runs_word_then w rest :
  w <> [] -> Forall (fun c => nonspace c = true) w ->
  (rest = [] \/ exists r, rest = " "%char :: r) ->
  runs nonspace (w ++ rest) = w :: runs nonspace rest.
Proof.
  intros Hne Hw Hrest. induction Hw as [|c w Hc Hw IH]; [done|].
  assert (Hsc : isspace c = false) by (unfold nonspace in Hc; by destruct (isspace c)).
  destruct w as [|c2 w'].
  - cbn [app]. destruct Hrest as [-> | [r ->]].
    + cbn [runs]. by rewrite Hc.
    + by rewrite (NormalizeFacts.runs_word_space c " "%char r Hsc eq_refl).
  - inversion Hw as [|? ? Hc2 _]; subst.
    assert (Hsc2 : isspace c2 = false) by (unfold nonspace in Hc2; by destruct (isspace c2)).
    specialize (IH ltac:(done)).
    change ((c :: c2 :: w') ++ rest)%list with (c :: c2 :: (w' ++ rest))%list.
    change ((c2 :: w') ++ rest)%list with (c2 :: (w' ++ rest))%list in IH.
    destruct (NormalizeFacts.runs_word_word c c2 (w' ++ rest) Hsc Hsc2)
      as (r & rs & Hr & ->).
    rewrite IH in Hr. by injection Hr as <- <-.
Qed.

Lemma runs_join_words ws :
  Forall (fun w => w <> [] /\ Forall (fun c => nonspace c = true) w) ws ->
  runs nonspace (join_words ws) = ws.
Proof.
  induction 1 as [|w ws [Hne Hw] Hws IH]; [done|].
  cbn [join_words]. destruct ws as [|w' ws'].
  - rewrite <- (app_nil_r w) at 1. rewrite runs_word_then; auto.
  - rewrite runs_word_then; [|done|done|right; eauto].
    rewrite (NormalizeFacts.runs_space " "%char _ eq_refl). by rewrite IH.
Qed.
End CharFacts.

Lemma spec_normalize_idem text :
  spec_normalize (spec_normalize text) = spec_normalize text.
Proof.
  unfold spec_normalize. rewrite chars_str. f_equal.
  set (ws := Text.runs nonspace (Text.lower (chars text))).
  assert (Hfix : Forall (Forall (fun c => Text.lower_char c = c)) ws).
  { apply CharFacts.runs_Forall, CharFacts.lower_fixed. }
  rewrite CharFacts.lower_of_fixed by (by apply CharFacts.join_words_Forall).
  rewrite CharFacts.runs_join_words; [done|].
  pose proof (NormalizeFacts.runs_no_empty_word (Text.lower (chars text))) as Hne.
  pose proof (CharFacts.runs_kept nonspace (Text.lower (chars text))) as Hk.
  fold ws in Hne, Hk. clear -Hne Hk.
  induction Hne as [|w ws Hw _ IH]; [constructor|].
  inversion Hk; subst. constructor; [done | by apply IH].
Qed.

Lemma normalize_idempotent_aux text : _normalize (_normalize text) = _normalize text.
Proof. rewrite !normalize_spec. apply spec_normalize_idem. Qed.

(** X1. Normalising is idempotent: a normal form is its own normal form. *)
Theorem normalize_idempotent (text : string) :
  _normalize (_normalize text) = _normalize text.
Proof.
  rewrite (normalize_spec text), (normalize_spec (spec_normalize text)).
  apply spec_normalize_idem.
Qed.

Lemma phrase_hit_normalized a phrase :
  phrase_hit a (_normalize phrase) = phrase_hit a phrase.
Proof. unfold phrase_hit. by rewrite normalize_idempotent_aux. Qed.

Lemma count_hits_normalized a phrases :
  count_hits a (map _normalize phrases) = count_hits a phrases.
Proof.
  rewrite !count_hits_filter.
  induction phrases as [|p l IH]; [done|].
  cbn [map List.filter]. rewrite phrase_hit_normalized.
  destruct (phrase_hit a p); simpl; by rewrite IH.
Qed.

(** X2. The two phrase scores do not depend on letter case or on the layout
    of whitespace: they are the same on the normal forms of the answer and
    of the phrases. *)
Theorem phrase_scores_normalized (answer : string) (phrases : list string) :
  must_include_score (_normalize answer) (map _normalize phrases)
  = must_include_score answer phrases /\
  must_not_include_violations (_normalize answer) (map _normalize phrases)
  = must_not_include_violations answer phrases.
Proof.
  split.
  - destruct phrases as [|p l]; [done|].
    unfold must_include_score. cbn [map]. rewrite length_cons, length_map.
    change (_normalize p :: map _normalize l) with (map _normalize (p :: l)).
    by rewrite normalize_idempotent_aux, count_hits_normalized.
  - rewrite !violations_count.
    by rewrite normalize_idempotent_aux, count_hits_normalized.
Qed.

Lemma runs_none (keep : ascii -> bool) l :
  Forall (fun c => keep c = false) l -> Text.runs keep l = [].
Proof.
  induction 1 as [|c l Hc _ IH]; [done|]. cbn [Text.runs]. by rewrite Hc.
Qed.

Lemma normalize_blank phrase : blank phrase -> _normalize phrase = "".
Proof.
  intros Hb. rewrite normalize_spec. unfold spec_normalize.
  rewrite runs_none; [done|].
  unfold blank in Hb. apply Forall_forall. intros c Hc.
  apply list_elem_of_fmap in Hc as (c' & -> & Hc').
  rewrite Forall_forall in Hb. unfold nonspace.
  by rewrite CharFacts.isspace_lower_char, (Hb c' Hc').
Qed.

Lemma filter_length_full {A} (f : A -> bool) l :
  length (List.filter f l) = length l <-> Forall (fun x => f x = true) l.
Proof.
  induction l as [|x l IH]; [by split; [constructor|]|].
  cbn [List.filter]. pose proof (List.filter_length_le f l) as Hle.
  destruct (f x) eqn:Hx; simpl.
  - split.
    + intros [= H]. constructor; [done | by apply IH].
    + inversion 1; subst. f_equal. by apply IH.
  - split; [lia | inversion 1; congruence].
Qed.

Lemma must_include_score_le_1 answer phrases :
  (must_include_score answer phrases <= 1)%R.
Proof.
  destruct phrases as [|p l]; [simpl; lra|].
  unfold must_include_score. set (n := length (p :: l)).
  assert (Hn : (0 < INR n)%R) by (apply lt_0_INR; unfold n; simpl; lia).
  pose proof (count_hits_le (_normalize answer) (p :: l)) as Hle.
  apply le_INR in Hle. fold n in Hle.
  apply (Rmult_le_reg_r (INR n)); [done|].
  unfold Rdiv. rewrite Rmult_assoc, Rinv_l by lra. lra.
Qed.

(** X3. The coverage score is 1 exactly when every required phrase is
    covered (its normal form is not empty and occurs in the normal form of
    the answer); so a required phrase that is empty or whitespace-only keeps
    the score below 1 whatever the answer. *)
Theorem must_include_score_full (answer : string) (phrases : list string) :
  (must_include_score answer phrases = 1%R <->
   forall p, p ∈ phrases -> covered answer p) /\
  (forall p, p ∈ phrases -> blank p ->
             (must_include_score answer phrases < 1)%R).
Proof.
  assert (Hiff : must_include_score answer phrases = 1%R <->
                 forall p, p ∈ phrases -> covered answer p).
  { destruct phrases as [|p0 l]; [split; [intros _ p Hp; by apply elem_of_nil in Hp | done]|].
    unfold must_include_score. set (ps := p0 :: l).
    assert (Hn : (0 < INR (length ps))%R) by (apply lt_0_INR; unfold ps; simpl; lia).
    rewrite count_hits_filter.
    assert (Hnat : (INR (length (List.filter (phrase_hit (_normalize answer)) ps))
                    / INR (length ps) = 1)%R
                   <-> length (List.filter (phrase_hit (_normalize answer)) ps)
                       = length ps).
    { split.
      - intros H. apply INR_eq. apply (Rmult_eq_compat_r (INR (length ps))) in H.
        unfold Rdiv in H. rewrite Rmult_assoc, Rinv_l in H by lra. lra.
      - intros ->. by field; lra. }
    rewrite Hnat, filter_length_full, Forall_forall.
    split; intros H p Hp; specialize (H p Hp).
    - apply phrase_hit_spec in H. unfold covered. by rewrite <- !normalize_spec.
    - apply phrase_hit_spec. unfold covered in H. by rewrite <- !normalize_spec in H. }
  split; [exact Hiff|].
  intros p Hp Hb.
  destruct (must_include_score_le_1 answer phrases) as [Hlt | Heq]; [exact Hlt|].
  exfalso. destruct (proj1 Hiff Heq p Hp) as [Hne _].
  apply Hne. rewrite <- normalize_spec. by apply normalize_blank.
Qed.

Lemma must_include_score_full_witness :
  (must_include_score "Retry with backoff." ["retry"; "   "] < 1)%R.
Proof.
  apply (must_include_score_full "Retry with backoff." ["retry"; "   "]) with "   ".
  - right. left.
  - apply str_strip_blank. reflexivity.
Defined.

(** ** Grounding as a cosine of term weights (evaluate.py) *)

Module Weights.
Import Sklearn VectorFacts.

(** The tf-idf weights of an analysed text over a vocabulary, before they
    are normalised *)
Definition weights (vocab : list string) (analysed : list (list string))
    (terms : list string) : list R :=
  map (fun t => (INR (tf t terms) * idf (length analysed) (df t analysed))%R) vocab.

(** The cosine that [grounding_score] and [retrieve] compute on rows that
    [fit_transform] and [transform] have normalised once already *)
Definition cosine (u v : list R) : R :=
  dot (normalize (normalize u)) (normalize (normalize v)).

Lemma dot_comm u v : dot u v = dot v u.
Proof.
  revert v. induction u as [|x u IH]; intros v; [by rewrite dot_nil_l, dot_nil_r|].
  destruct v as [|y v]; [done|]. rewrite !dot_cons, IH. lra.
Qed.

Lemma dot_normalize u v :
  dot (normalize u) (normalize v) = (dot u v * (/ scale u * / scale v))%R.
Proof. rewrite !normalize_scale. apply dot_scale. Qed.

(** The cosine is the dot product of the weights up to a positive factor. *)
Lemma cosine_factor u v :
  exists k, (0 < k)%R /\ cosine u v = (dot u v * k)%R.
Proof.
  unfold cosine. rewrite !dot_normalize.
  pose proof (scale_pos u). pose proof (scale_pos v).
  pose proof (scale_pos (normalize u)). pose proof (scale_pos (normalize v)).
  exists (/ scale u * / scale v * (/ scale (normalize u) * / scale (normalize v)))%R.
  split; [|ring].
  repeat apply Rmult_lt_0_compat; by apply Rinv_0_lt_compat.
Qed.

Lemma dot_map {A} (f g : A -> R) l :
  dot (map f l) (map g l) = sum_R (map (fun t => (f t * g t)%R) l).
Proof. induction l as [|x l IH]; [done|]. simpl. by rewrite dot_cons, IH. Qed.

Lemma sum_R_nonneg l : Forall (fun x => (0 <= x)%R) l -> (0 <= sum_R l)%R.
Proof. induction 1 as [|x l Hx _ IH]; simpl; lra. Qed.

Lemma sum_R_zero_iff l :
  Forall (fun x => (0 <= x)%R) l ->
  (sum_R l = 0%R <-> Forall (fun x => x = 0%R) l).
Proof.
  induction 1 as [|x l Hx Hl IH]; [by split; [constructor|]|].
  simpl. pose proof (sum_R_nonneg l Hl) as Hs. split.
  - intros H. constructor; [lra|]. apply IH. lra.
  - inversion 1 as [|? ? -> Hz]; subst. apply IH in Hz. lra.
Qed.

Lemma tf_zero t terms : tf t terms = 0%nat <-> t ∉ terms.
Proof.
  unfold tf. induction terms as [|u terms IH]; [split; [intros _ H; by apply elem_of_nil in H | done]|].
  cbn [List.filter]. rewrite not_elem_of_cons.
  destruct (String.eqb_spec t u) as [->|Hne]; simpl.
  - split; [done | by intros [? _]].
  - rewrite IH. split; [done | by intros [_ ?]].
Qed.

Lemma weight_nonneg analysed terms t :
  (0 <= INR (tf t terms) * idf (length analysed) (df t analysed))%R.
Proof.
  pose proof (pos_INR (tf t terms)).
  pose proof (idf_ge_1 (length analysed) (df t analysed) (df_le t analysed)). nra.
Qed.

(** The weights of two texts are orthogonal exactly when no term of the
    vocabulary occurs in both. *)
Lemma dot_weights_zero vocab analysed ta tc :
  dot (weights vocab analysed ta) (weights vocab analysed tc) = 0%R <->
  forall t, t ∈ vocab -> t ∉ ta \/ t ∉ tc.
Proof.
  unfold weights. rewrite dot_map, sum_R_zero_iff.
  - rewrite Forall_fmap, Forall_forall. unfold compose.
    split; intros H t Ht; specialize (H t Ht).
    + pose proof (idf_ge_1 (length analysed) (df t analysed) (df_le t analysed)) as Hi.
      destruct (Nat.eq_dec (tf t ta) 0) as [E|E]; [left; by apply tf_zero|].
      destruct (Nat.eq_dec (tf t tc) 0) as [E'|E']; [right; by apply tf_zero|].
      exfalso. assert (1 <= INR (tf t ta))%R by (apply (le_INR 1); lia).
      assert (1 <= INR (tf t tc))%R by (apply (le_INR 1); lia).
      set (i := idf (length analysed) (df t analysed)) in *.
      assert (1 <= INR (tf t ta) * i)%R by nra.
      assert (1 <= INR (tf t tc) * i)%R by nra. nra.
    + destruct H as [H|H]; apply tf_zero in H; rewrite H; simpl; ring.
  - rewrite Forall_fmap. apply Forall_forall. intros t _. unfold compose.
    pose proof (weight_nonneg analysed ta t). pose proof (weight_nonneg analysed tc t).
    nra.
Qed.

Lemma dot_weights_nonneg vocab analysed ta tc :
  (0 <= dot (weights vocab analysed ta) (weights vocab analysed tc))%R.
Proof.
  apply dot_nonneg; apply Forall_forall; intros x Hx;
    apply list_elem_of_fmap in Hx as (t & -> & _); apply weight_nonneg.
Qed.

Lemma df_swap t ta tc : df t [ta; tc] = df t [tc; ta].
Proof.
  unfold df. cbn [List.filter].
  destruct (0 <? tf t ta)%nat, (0 <? tf t tc)%nat; reflexivity.
Qed.

Lemma sorted_features_swap ta tc :
  sorted_features [ta; tc] = sorted_features [tc; ta].
Proof.
  unfold sorted_features.
  apply (Sorted_unique String.le); try apply Sorted_merge_sort; try apply _.
  rewrite !merge_sort_Permutation.
  apply NoDup_Permutation; try apply NoDup_remove_dups.
  intros t. rewrite !elem_of_remove_dups. simpl. rewrite !app_nil_r, !elem_of_app.
  tauto.
Qed.
End Weights.

Section GroundingTheorems.
Variable STOP : list string.

(** The terms of a text as [grounding_score] sees them *)
Definition terms_of (s : string) : list string :=
  Sklearn.analyze STOP (str_strip s).

Definition grounding_cosine (answer context : string) : R :=
  let analysed := [terms_of answer; terms_of context] in
  let vocab := Sklearn.sorted_features analysed in
  Weights.cosine (Weights.weights vocab analysed (terms_of answer))
                 (Weights.weights vocab analysed (terms_of context)).

Lemma grounding_score_formula answer context :
  ~ blank answer -> ~ blank context ->
  (terms_of answer ++ terms_of context)%list <> [] ->
  grounding_score STOP answer context
  = Ok (clamp01 (grounding_cosine answer context)).
Proof.
  intros Ha Hc Hne.
  destruct (grounding_score_terms STOP answer context Ha Hc Hne) as (v & Hf & ->).
  pose proof (fit_transform_vocabulary _ _ _ _ _ Hf) as Hvoc.
  pose proof (fit_transform_Ok STOP _ _ _ _ Hf) as (_ & _ & Hidf).
  cbn [fmap option_fmap option_map Sklearn.limit_features map] in Hvoc.
  cbn [map] in Hidf.
  unfold grounding_cosine, Weights.cosine, Weights.weights, terms_of.
  unfold Sklearn.tfidf_row, Sklearn.counts.
  rewrite Hidf, !SelfSimilarity.zip_with_map_same, Hvoc. reflexivity.
Qed.

Lemma grounding_cosine_nonneg answer context :
  (0 <= grounding_cosine answer context)%R.
Proof.
  unfold grounding_cosine.
  destruct (Weights.cosine_factor
    (Weights.weights (Sklearn.sorted_features [terms_of answer; terms_of context])
       [terms_of answer; terms_of context] (terms_of answer))
    (Weights.weights (Sklearn.sorted_features [terms_of answer; terms_of context])
       [terms_of answer; terms_of context] (terms_of context))) as (k & Hk & ->).
  pose proof (Weights.dot_weights_nonneg
    (Sklearn.sorted_features [terms_of answer; terms_of context])
    [terms_of answer; terms_of context] (terms_of answer) (terms_of context)).
  nra.
Qed.

Lemma grounding_cosine_zero answer context :
  grounding_cosine answer context = 0%R <->
  forall t, t ∈ terms_of answer -> t ∉ terms_of context.
Proof.
  unfold grounding_cosine.
  destruct (Weights.cosine_factor
    (Weights.weights (Sklearn.sorted_features [terms_of answer; terms_of context])
       [terms_of answer; terms_of context] (terms_of answer))
    (Weights.weights (Sklearn.sorted_features [terms_of answer; terms_of context])
       [terms_of answer; terms_of context] (terms_of context))) as (k & Hk & ->).
  assert (Hz : forall d, (d * k = 0 <-> d = 0)%R) by (intros d; split; nra).
  rewrite Hz, Weights.dot_weights_zero. split.
  - intros H t Hta Htc. destruct (H t); [|done..].
    apply SelfSimilarity.elem_of_sorted_features. simpl. rewrite elem_of_app. by left.
  - intros H t _. destruct (decide (t ∈ terms_of answer)) as [Hta|Hta]; [|by left].
    right. by apply H.
Qed.

Lemma grounding_cosine_sym answer context :
  grounding_cosine answer context = grounding_cosine context answer.
Proof.
  unfold grounding_cosine, Weights.cosine, Weights.weights.
  rewrite (Weights.sorted_features_swap (terms_of answer) (terms_of context)).
  rewrite Weights.dot_comm. cbn [length].
  f_equal; do 2 f_equal; apply map_ext; intros t; by rewrite Weights.df_swap.
Qed.


(** X4. Whenever [grounding_score] returns, the score lies in [0,1]. *)
Theorem grounding_score_in_unit (answer context : string) (g : R) :
  grounding_score STOP answer context = Ok g -> (0 <= g <= 1)%R.
Proof.
  intros Hg.
  destruct (decide (blank answer)) as [Ha|Ha].
  { rewrite grounding_score_blank in Hg by auto. injection Hg as <-. lra. }
  destruct (decide (blank context)) as [Hc|Hc].
  { rewrite grounding_score_blank in Hg by auto. injection Hg as <-. lra. }
  destruct (terms_of answer ++ terms_of context)%list eqn:E.
  - apply app_eq_nil in E as [E1 E2]. by rewrite grounding_score_no_terms in Hg.
  - rewrite grounding_score_formula in Hg; [|done..|by rewrite E].
    injection Hg as <-. apply clamp01_bounds.
Qed.

(** X5. [grounding_score] raises exactly when neither text is blank and
    neither has a term (a word of two or more word characters that is not a
    stop word); the exception is the empty-vocabulary error of the
    vectorizer. *)
Theorem grounding_score_raises_iff (answer context : string) (e : exn) :
  grounding_score STOP answer context = Raise e <->
  ~ blank answer /\ ~ blank context /\
  terms_of answer = [] /\ terms_of context = [] /\ e = empty_vocabulary.
Proof.
  split.
  - intros Hr.
    destruct (decide (blank answer)) as [Ha|Ha].
    { by rewrite grounding_score_blank in Hr by auto. }
    destruct (decide (blank context)) as [Hc|Hc].
    { by rewrite grounding_score_blank in Hr by auto. }
    destruct (terms_of answer ++ terms_of context)%list eqn:E.
    + apply app_eq_nil in E as [E1 E2].
      rewrite grounding_score_no_terms in Hr by done. by injection Hr as <-.
    + rewrite grounding_score_formula in Hr; [done..|]. by rewrite E.
  - intros (Ha & Hc & Hta & Htc & ->). by apply grounding_score_no_terms.
Qed.

(** X6. [grounding_score] returns 0 exactly when one of the texts is blank,
    or the two texts have a term between them but none in common. *)
Theorem grounding_score_zero_iff (answer context : string) :
  grounding_score STOP answer context = Ok 0%R <->
  blank answer \/ blank context \/
  ((terms_of answer ++ terms_of context)%list <> [] /\
   forall t, t ∈ terms_of answer -> t ∉ terms_of context).
Proof.
  destruct (decide (blank answer)) as [Ha|Ha].
  { rewrite grounding_score_blank by auto. split; auto. }
  destruct (decide (blank context)) as [Hc|Hc].
  { rewrite grounding_score_blank by auto. split; auto. }
  destruct (terms_of answer ++ terms_of context)%list eqn:E.
  - apply app_eq_nil in E as [E1 E2].
    rewrite grounding_score_no_terms by done.
    split; [done | intros [?|[?|[? _]]]; done].
  - rewrite grounding_score_formula; [|done..|by rewrite E].
    pose proof (grounding_cosine_nonneg answer context) as Hn.
    rewrite <- grounding_cosine_zero. unfold clamp01.
    destruct (Rlt_dec (grounding_cosine answer context) 0) as [?|_]; [lra|].
    destruct (Rlt_dec 1 (grounding_cosine answer context)) as [H1|H1].
    + split; [intros [= H]; lra | intros [?|[?|[_ H]]]; [done | done | lra]].
    + split; [intros [= H]; auto | intros [?|[?|[_ H]]]; [done | done | by rewrite H]].
Qed.


(** X8. [grounding_score] is symmetric in the answer and the context, in
    the score as in the exception. *)
Theorem grounding_score_sym (answer context : string) :
  grounding_score STOP answer context = grounding_score STOP context answer.
Proof.
  destruct (decide (blank answer)) as [Ha|Ha].
  { by rewrite !grounding_score_blank by auto. }
  destruct (decide (blank context)) as [Hc|Hc].
  { by rewrite !grounding_score_blank by auto. }
  destruct (terms_of answer) as [|ta tas] eqn:Ea;
    destruct (terms_of context) as [|tc tcs] eqn:Ec.
  - by rewrite !grounding_score_no_terms.
  - rewrite !grounding_score_formula; try done; [|by rewrite Ea, Ec..].
    by rewrite grounding_cosine_sym.
  - rewrite !grounding_score_formula; try done; [|by rewrite Ea, Ec..].
    by rewrite grounding_cosine_sym.
  - rewrite !grounding_score_formula; try done; [|by rewrite Ea, Ec..].
    by rewrite grounding_cosine_sym.
Qed.
End GroundingTheorems.


Lemma grounding_score_in_unit_witness :
  exists g, grounding_score stop_sample "alpha beta" "alpha" = Ok g /\ (0 <= g <= 1)%R.
Proof.
  assert (H : grounding_score stop_sample "alpha beta" "alpha"
              = Ok (clamp01 (grounding_cosine stop_sample "alpha beta" "alpha"))).
  { apply grounding_score_formula.
    - apply not_blank_strip. by vm_compute.
    - apply not_blank_strip. by vm_compute.
    - by vm_compute. }
  eexists. split; [exact H|].
  exact (grounding_score_in_unit stop_sample _ _ _ H).
Defined.


(** ** Which runs can be scored (evaluate.py) *)

Section EvaluateRunReturns.
Variable STOP : list string.




End EvaluateRunReturns.



(** ** Loading and comparing tables (report.py) *)

Lemma foldl_snoc {A B} (f : A -> B -> A) a l x :
  foldl f a (l ++ [x])%list = f (foldl f a l) x.
Proof. revert a. induction l as [|y l IH]; intros a; simpl; [done | apply IH]. Qed.

Lemma rows_of_snoc lines r : rows_of (lines ++ [r])%list = <[row_id r := r]> (rows_of lines).
Proof.
  unfold rows_of.
  apply (foldl_snoc (fun (rows : gmap string EvalRow) row => <[row_id row := row]> rows)).
Qed.

Lemma rows_of_last lines qid :
  rows_of lines !! qid
  = last (List.filter (fun r => String.eqb (row_id r) qid) lines).
Proof.
  induction lines as [|r lines IH] using rev_ind; [done|].
  rewrite rows_of_snoc, List.filter_app. cbn [List.filter].
  destruct (String.eqb_spec (row_id r) qid) as [->|Hne].
  - by rewrite lookup_insert_eq, last_snoc.
  - by rewrite lookup_insert_ne, app_nil_r.
Qed.

(** X10. [load_eval_csv] raises exactly on a table without rows; in the
    table it returns, a question id maps to the last line that carries it,
    so a repeated id silently overwrites the earlier line, and an id that no
    line carries is absent. *)
Theorem load_eval_csv_last_wins (lines : list EvalRow) :
  (load_eval_csv lines = Raise (ValueError "No rows found") <-> lines = []) /\
  (forall rows, load_eval_csv lines = Ok rows ->
     forall qid, rows !! qid
                 = last (List.filter (fun r => String.eqb (row_id r) qid) lines)).
Proof.
  split.
  - split; [|by intros ->].
    intros H. destruct lines as [|r l]; [done|].
    assert (Hok : load_eval_csv (r :: l) = Ok (rows_of (r :: l))).
    { by apply load_eval_csv_Ok. }
    congruence.
  - intros rows Hl qid. apply load_eval_csv_Ok in Hl as [_ ->].
    apply rows_of_last.
Qed.

Definition row_q1_again : EvalRow :=
  {| row_id := "q1"; row_question := None;
     row_must_include_score := None; row_grounding_score := None;
     row_must_not_include_violations := Some 7%Z |}.

Lemma load_eval_csv_last_wins_witness :
  exists rows,
    load_eval_csv [row_q1; row_q2; row_q1_again] = Ok rows /\
    rows !! "q1" = Some row_q1_again.
Proof.
  assert (Hl : load_eval_csv [row_q1; row_q2; row_q1_again]
               = Ok (rows_of [row_q1; row_q2; row_q1_again])).
  { apply load_eval_csv_Ok. split; [discriminate | reflexivity]. }
  exists (rows_of [row_q1; row_q2; row_q1_again]). split; [exact Hl|].
  rewrite (proj2 (load_eval_csv_last_wins _) _ Hl "q1"). reflexivity.
Defined.

Lemma StronglySorted_NoDup_strict (l : list string) :
  StronglySorted String.le l -> NoDup l ->
  StronglySorted (fun a b => String.le a b /\ a <> b) l.
Proof.
  induction 1 as [|x l Hs IH Hx]; intros Hnd; [constructor|].
  apply NoDup_cons in Hnd as [Hnx Hnd]. constructor; [by apply IH|].
  rewrite Forall_forall in Hx. apply Forall_forall. intros y Hy.
  split; [by apply Hx | by intros ->].
Qed.

(** X11. The deltas of a comparison are listed by strictly ascending
    question id, whatever the order of the lines in the two tables. *)
Theorem compare_runs_sorted_by_id (old_csv new_csv : list EvalRow) (c : Comparison) :
  compare_runs old_csv new_csv = Ok c ->
  StronglySorted (fun a b => String.le a b /\ a <> b) (delta_id <$> deltas c).
Proof.
  intros Hc. apply compare_runs_Ok in Hc as (_ & _ & _ & Hm & _).
  apply delta_ids in Hm. rewrite Hm.
  apply StronglySorted_NoDup_strict; [|apply NoDup_common_ids].
  unfold common_ids. apply StronglySorted_merge_sort; apply _.
Qed.

Lemma compare_runs_sorted_by_id_witness :
  exists c,
    compare_runs [row_q2; row_q1] [row_q2; row_q1] = Ok c /\
    StronglySorted (fun a b => String.le a b /\ a <> b) (delta_id <$> deltas c).
Proof.
  destruct (compare_runs_total [row_q2; row_q1] [row_q2; row_q1]) as [c Hc].
  - exists "q1". split; right; left.
  - intros r Hr. cbn [app] in Hr. rewrite !elem_of_cons in Hr.
    destruct Hr as [-> | [-> | [-> | [-> | Hr]]]]; [by eexists.. |].
    apply elem_of_nil in Hr. destruct Hr.
  - exists c. split; [exact Hc|].
    exact (compare_runs_sorted_by_id _ _ c Hc).
Defined.

(** The deltas of the comparison taken the other way round *)
Definition negated (d d' : Delta) : Prop :=
  delta_id d' = delta_id d /\
  delta_must_include d' = (- delta_must_include d)%R /\
  delta_grounding d' = (- delta_grounding d)%R /\
  delta_violations d' = (- delta_violations d)%Z.

Lemma delta_of_swap old new qid d :
  delta_of old new qid = Ok d ->
  exists d', delta_of new old qid = Ok d' /\ negated d d'.
Proof.
  unfold delta_of, getkey, int.
  destruct (old !! qid) as [o|]; simpl; [|done].
  destruct (new !! qid) as [n|]; simpl; [|done].
  destruct (row_must_not_include_violations n) as [nv|]; simpl; [|done].
  destruct (row_must_not_include_violations o) as [ov|]; simpl; [|done].
  intros [= <-]. eexists. split; [reflexivity|].
  unfold negated. simpl. repeat split; [lra | lra | lia].
Qed.

Lemma mapM_swap old new ids ds :
  mapM (delta_of old new) ids = Ok ds ->
  exists ds', mapM (delta_of new old) ids = Ok ds' /\ Forall2 negated ds ds'.
Proof.
  intros H. apply mapM_Ok in H.
  induction H as [|q d ids ds Hd _ (ds' & Hm & HF)]; [by exists []|].
  destruct (delta_of_swap _ _ _ _ Hd) as (d' & Hd' & Hn).
  exists (d' :: ds'). split; [|by constructor].
  simpl. rewrite Hd'. simpl. by rewrite Hm.
Qed.

Lemma common_ids_swap old new : common_ids new old = common_ids old new.
Proof. unfold common_ids. by rewrite (comm_L (∩) (dom new)). Qed.

(** X12. Comparing the two runs the other way round returns as well, with
    the same question ids in the same order and every delta negated. *)
Theorem compare_runs_swap (old_csv new_csv : list EvalRow) (c : Comparison) :
  compare_runs old_csv new_csv = Ok c ->
  exists c', compare_runs new_csv old_csv = Ok c' /\
             Forall2 negated (deltas c) (deltas c').
Proof.
  intros Hc. apply compare_runs_Ok in Hc as (Ho & Hn & Hne & Hm & _).
  destruct (mapM_swap _ _ _ _ Hm) as (ds' & Hm' & HF).
  unfold compare_runs.
  rewrite (proj2 (load_eval_csv_Ok new_csv _) (conj Hn eq_refl)).
  rewrite (proj2 (load_eval_csv_Ok old_csv _) (conj Ho eq_refl)).
  cbn [mbind result_bind].
  fold (common_ids (rows_of new_csv) (rows_of old_csv)). rewrite common_ids_swap.
  destruct (common_ids (rows_of old_csv) (rows_of new_csv)) as [|q qs]; [done|].
  rewrite Hm'. cbn [mbind result_bind]. eexists. split; [reflexivity|]. exact HF.
Qed.

Lemma compare_runs_swap_witness :
  exists c c',
    compare_runs [row_q1; row_q2] [row_q2] = Ok c /\
    compare_runs [row_q2] [row_q1; row_q2] = Ok c' /\
    Forall2 negated (deltas c) (deltas c').
Proof.
  destruct (compare_runs_total [row_q1; row_q2] [row_q2]) as [c Hc].
  - exists "q2". split; [right; left | left].
  - intros r Hr. cbn [app] in Hr. rewrite !elem_of_cons in Hr.
    destruct Hr as [-> | [-> | [-> | Hr]]]; [by eexists.. |].
    apply elem_of_nil in Hr. destruct Hr.
  - destruct (compare_runs_swap _ _ c Hc) as (c' & Hc' & HF).
    exists c, c'. repeat split; assumption.
Defined.

Lemma sum_Z_cons x l : sum_Z (x :: l) = (x + sum_Z l)%Z.
Proof. done. Qed.

Lemma sum_Z_max_nonneg (l : list Z) : (0 <= sum_Z (map (Z.max 0) l))%Z.
Proof.
  induction l as [|x l IH]; [done|]. cbn [map]. rewrite sum_Z_cons.
  pose proof (Z.le_max_l 0 x). lia.
Qed.

Lemma sum_Z_max_zero (l : list Z) :
  sum_Z (map (Z.max 0) l) = 0%Z <-> Forall (fun x => (x <= 0)%Z) l.
Proof.
  induction l as [|x l IH]; [by split; [constructor|]|].
  cbn [map]. rewrite sum_Z_cons. pose proof (sum_Z_max_nonneg l).
  pose proof (Z.le_max_l 0 x). pose proof (Z.le_max_r 0 x). split.
  - intros Hsum. constructor; [lia|]. apply IH. lia.
  - inversion 1; subst. assert (sum_Z (map (Z.max 0) l) = 0%Z) by by apply IH.
    rewrite Z.max_l by done. lia.
Qed.

(** X13. The summary of a comparison counts the compared questions, and its
    total of new violations is never negative: it is 0 exactly when no
    question has more violations in the new run than in the old one, however
    many violations were removed. *)
Theorem compare_runs_new_violations (old_csv new_csv : list EvalRow) (c : Comparison) :
  compare_runs old_csv new_csv = Ok c ->
  count (summary c) = length (deltas c) /\
  (0 <= total_new_violations (summary c))%Z /\
  (total_new_violations (summary c) = 0%Z <->
   Forall (fun d => (delta_violations d <= 0)%Z) (deltas c)).
Proof.
  intros Hc. apply compare_runs_Ok in Hc as (_ & _ & _ & _ & Ht & Hn).
  split; [done|]. rewrite Ht.
  rewrite <- (map_map delta_violations (Z.max 0)).
  split; [apply sum_Z_max_nonneg|].
  by rewrite sum_Z_max_zero, Forall_fmap.
Qed.

Lemma compare_runs_new_violations_witness :
  exists c,
    compare_runs [row_q1; row_q2] [row_q2] = Ok c /\
    (0 <= total_new_violations (summary c))%Z.
Proof.
  destruct (compare_runs_total [row_q1; row_q2] [row_q2]) as [c Hc].
  - exists "q2". split; [right; left | left].
  - intros r Hr. cbn [app] in Hr. rewrite !elem_of_cons in Hr.
    destruct Hr as [-> | [-> | [-> | Hr]]]; [by eexists.. |].
    apply elem_of_nil in Hr. destruct Hr.
  - exists c. split; [exact Hc|].
    apply (compare_runs_new_violations _ _ c Hc).
Defined.

(** ** The worst regressions of the report (report.py, write_markdown_report) *)

Section Sorted.
Context {A : Type} (key : A -> R).

Fixpoint insert_sorted (x : A) (l : list A) : list A :=
  match l with
  | [] => [x]
  | y :: l' => if Rleb (key x) (key y) then x :: l else y :: insert_sorted x l'
  end.

(** [sorted(l, key=key)]: ascending by key, equal keys in their order in [l] *)
Fixpoint sorted (l : list A) : list A :=
  match l with
  | [] => []
  | x :: l' => insert_sorted x (sorted l')
  end.

Lemma insert_sorted_perm x l : insert_sorted x l ≡ₚ x :: l.
Proof.
  induction l as [|y l IH]; simpl; [done|].
  destruct (Rleb (key x) (key y)); [done|]. rewrite IH. apply Permutation_swap.
Qed.

Lemma sorted_perm l : sorted l ≡ₚ l.
Proof. induction l as [|x l IH]; simpl; [done|]. by rewrite insert_sorted_perm, IH. Qed.

Lemma insert_sorted_sorted x l :
  StronglySorted (fun a b => (key a <= key b)%R) l ->
  StronglySorted (fun a b => (key a <= key b)%R) (insert_sorted x l).
Proof.
  induction 1 as [|y l Hs IH Hy]; simpl; [repeat constructor|].
  destruct (Rleb (key x) (key y)) eqn:E.
  - apply Rleb_le in E. constructor; [by constructor|].
    constructor; [done|]. eapply Forall_impl; [exact Hy|]. intros z Hz. simpl in Hz. lra.
  - constructor; [done|]. rewrite insert_sorted_perm. constructor; [|done].
    destruct (Rleb_total (key x) (key y)) as [E'|E']; [congruence|]. by apply Rleb_le.
Qed.

Lemma sorted_sorted l : StronglySorted (fun a b => (key a <= key b)%R) (sorted l).
Proof. induction l as [|x l IH]; simpl; [constructor | by apply insert_sorted_sorted]. Qed.
End Sorted.

(** [l[:stop]]: a negative [stop] counts from the end. *)
Definition slice_to {A} (stop : Z) (l : list A) : list A :=
  if (0 <=? stop)%Z then take (Z.to_nat stop) l
  else take (length l - Z.to_nat (- stop)) l.

(** The sort key of the report: the two score deltas added up *)
Definition combined (d : Delta) : R := (delta_must_include d + delta_grounding d)%R.

(** [worst] of [write_markdown_report] *)
Definition worst_regressions (deltas : list Delta) (top_n : Z) : list Delta :=
  slice_to top_n (sorted combined deltas).

(** X14. The worst regressions of the report are listed by ascending
    combined delta; they are entries of the comparison, none taken twice,
    and no entry left out has a smaller combined delta than a listed one;
    with [top_n >= 0] there are [min top_n (number of deltas)] of them. *)
Theorem worst_regressions_lowest (deltas : list Delta) (top_n : Z) :
  StronglySorted (fun a b => (combined a <= combined b)%R)
                 (worst_regressions deltas top_n) /\
  (exists rest,
      (worst_regressions deltas top_n ++ rest)%list ≡ₚ deltas /\
      forall d r, d ∈ worst_regressions deltas top_n -> r ∈ rest ->
                  (combined d <= combined r)%R) /\
  ((0 <= top_n)%Z ->
   length (worst_regressions deltas top_n)
   = Nat.min (Z.to_nat top_n) (length deltas)).
Proof.
  unfold worst_regressions.
  assert (Hcut : exists m, slice_to top_n (sorted combined deltas)
                           = take m (sorted combined deltas)).
  { unfold slice_to. destruct (0 <=? top_n)%Z; eauto. }
  destruct Hcut as [m Hm]. rewrite Hm.
  pose proof (sorted_sorted combined deltas) as Hs.
  split; [by apply StronglySorted_take|]. split.
  - exists (drop m (sorted combined deltas)). split.
    + by rewrite take_drop, sorted_perm.
    + rewrite <- (take_drop m (sorted combined deltas)) in Hs.
      intros d r Hd Hr. by eapply StronglySorted_app_1_elem_of in Hs.
  - intros Hn. rewrite <- Hm. unfold slice_to.
    destruct (Z.leb_spec 0 top_n); [|lia].
    by rewrite length_take, (sorted_perm combined deltas).
Qed.

Lemma worst_regressions_lowest_witness :
  length (worst_regressions
            [ {| delta_id := "q1"; delta_question := ""; delta_must_include := 0;
                 delta_grounding := 0; delta_violations := 0 |};
              {| delta_id := "q2"; delta_question := ""; delta_must_include := -1;
                 delta_grounding := 0; delta_violations := 1 |} ] 5) = 2%nat.
Proof.
  rewrite (proj2 (proj2 (worst_regressions_lowest _ 5))) by lia. reflexivity.
Defined.

(** ** Building the index (retrieve.py) *)

Lemma concat_nil_iff {A} (ls : list (list A)) :
  concat ls = [] <-> Forall (fun l => l = []) ls.
Proof.
  induction ls as [|l ls IH]; [by split; [constructor|]|].
  simpl. split.
  - intros H. apply app_eq_nil in H as [-> H]. constructor; [done | by apply IH].
  - inversion 1; subst. by apply IH.
Qed.


Section IndexTheorems.
Variable STOP : list string.

(** The text that the index is built on for one document *)
Definition corpus_text (d : Document) : string := title d ++ newline ++ text d.

(** X15. With a positive [max_features], building the index raises on an
    empty collection and on a collection in which no document has a term,
    and returns on every other collection. *)
Theorem TfidfRetriever_init_returns (docs : list Document) (max_features : Z) :
  (0 < max_features)%Z ->
  TfidfRetriever_init STOP [] max_features
  = Raise (ValueError "documents must not be empty") /\
  (docs <> [] ->
   (forall d, d ∈ docs -> Sklearn.analyze STOP (corpus_text d) = []) ->
   TfidfRetriever_init STOP docs max_features = Raise empty_vocabulary) /\
  ((exists self, TfidfRetriever_init STOP docs max_features = Ok self) <->
   exists d, d ∈ docs /\ Sklearn.analyze STOP (corpus_text d) <> []).
Proof.
  intros Hmf. split; [done|].
  assert (Hnil : concat (map (Sklearn.analyze STOP) (map corpus_text docs)) = []
                 <-> forall d, d ∈ docs -> Sklearn.analyze STOP (corpus_text d) = []).
  { rewrite concat_nil_iff, map_map, Forall_fmap, Forall_forall. done. }
  split.
  - intros Hne Hall. unfold TfidfRetriever_init. destruct docs as [|d0 docs]; [done|].
    unfold Sklearn.fit_transform. cbn [mbind result_bind].
    destruct (Z.leb_spec max_features 0); [lia|]. cbn [mbind result_bind].
    fold corpus_text. rewrite bool_decide_true by (by apply Hnil). done.
  - split.
    + intros [self Hs]. unfold TfidfRetriever_init in Hs.
      destruct docs as [|d0 docs]; [done|].
      destruct (Sklearn.fit_transform _ _ _) as [[v m]|e] eqn:Hf; [|done].
      apply fit_transform_Ok in Hf as (Hne & _). fold corpus_text in Hne.
      destruct (decide (Exists (fun d => Sklearn.analyze STOP (corpus_text d) <> [])
                               (d0 :: docs))) as [Hex|Hex].
      * apply Exists_exists in Hex as (d & Hd & Hdt). eauto.
      * exfalso. apply Hne, Hnil. intros d Hd.
        destruct (decide (Sklearn.analyze STOP (corpus_text d) = [])) as [|Hn]; [done|].
        exfalso. apply Hex, Exists_exists. eauto.
    + intros (d & Hd & Hdt). apply init_total; [|done|].
      * intros ->. by apply elem_of_nil in Hd.
      * rewrite <- (map_map corpus_text (Sklearn.analyze STOP)).
        intros Hc. by apply Hdt, (proj1 Hnil Hc).
Qed.

End IndexTheorems.

Lemma TfidfRetriever_init_returns_witness :
  exists self, TfidfRetriever_init stop_sample [d0; d1] 5000 = Ok self.
Proof.
  apply (TfidfRetriever_init_returns stop_sample [d0; d1] 5000); [lia|].
  exists d0. split; [left | by vm_compute].
Defined.


(** ** Ranking (retrieve.py) *)

Section RankingTheorems.
Variable STOP : list string.

Lemma hits_sorted self sims idxs hits :
  StronglySorted (ranked_before sims) idxs ->
  Forall2 (fun idx h => hit_at self sims idx = Ok h) idxs hits ->
  StronglySorted (fun h1 h2 => (score h2 <= score h1)%R) hits.
Proof.
  intros Hs HF. eapply (StronglySorted_Forall2 _ (ranked_before sims)); [|exact HF|exact Hs].
  intros i1 h1 i2 h2 H1 H2 (s1 & s2 & Hs1 & Hs2 & Hle & _).
  apply hit_at_Ok in H1 as (d1 & s1' & _ & Hs1' & ->).
  apply hit_at_Ok in H2 as (d2 & s2' & _ & Hs2' & ->).
  simpl. by simplify_eq.
Qed.

Lemma ranked_idx_take sims k k' :
  (0 < k <= k')%Z ->
  ranked_idx sims k = take (Z.to_nat k) (ranked_idx sims k').
Proof.
  intros Hk. unfold ranked_idx. rewrite take_take. f_equal. lia.
Qed.

(** X17. The hits for a smaller [top_k] are the first hits for a larger
    one, and every further hit of the larger result scores no more than any
    of them: [retrieve] returns the best-scoring documents. *)
Theorem retrieve_prefix (docs : list Document) (max_features : Z)
    (self : TfidfRetriever) (query : string) (k k' : Z) :
  TfidfRetriever_init STOP docs max_features = Ok self ->
  ~ blank query ->
  (0 < k <= k')%Z ->
  exists hits rest,
    retrieve STOP self query k = Ok hits /\
    retrieve STOP self query k' = Ok (hits ++ rest)%list /\
    forall h r, h ∈ hits -> r ∈ rest -> (score r <= score h)%R.
Proof.
  intros Hinit Hq Hk. apply init_built in Hinit as Hb.
  destruct (retrieve_total STOP docs self query k') as (hits' & Hr' & HF');
    [done | done | lia |].
  set (sims := similarities STOP self query) in *.
  exists (take (Z.to_nat k) hits'), (drop (Z.to_nat k) hits').
  split; [|split].
  - rewrite retrieve_valid by (done || lia). fold sims.
    rewrite (ranked_idx_take sims k k' Hk). apply mapM_Ok.
    by apply Forall2_take.
  - by rewrite take_drop.
  - pose proof (hits_sorted self sims _ hits' (ranked_idx_sorted sims k') HF') as Hs.
    rewrite <- (take_drop (Z.to_nat k) hits') in Hs.
    intros h r Hh Hrest.
    by apply (StronglySorted_app_1_elem_of _ _ _ _ _ Hs Hh Hrest).
Qed.
End RankingTheorems.

Lemma retrieve_prefix_witness :
  exists self hits rest,
    TfidfRetriever_init stop_sample [d0; d1] 5000 = Ok self /\
    retrieve stop_sample self "omega" 1 = Ok hits /\
    retrieve stop_sample self "omega" 2 = Ok (hits ++ rest)%list.
Proof.
  destruct sample_init as [self Hinit].
  destruct (retrieve_prefix stop_sample [d0; d1] 5000 self "omega" 1 2 Hinit
              sample_not_blank ltac:(lia)) as (hits & rest & H1 & H2 & _).
  exists self, hits, rest. repeat split; assumption.
Defined.







Section QueryTheorems.
Variable STOP : list string.



End QueryTheorems.



(** ** More on the phrase counts (evaluate.py) *)

Lemma phrase_hit_blank a phrase : blank phrase -> phrase_hit a phrase = false.
Proof. intros Hb. unfold phrase_hit. by rewrite (normalize_blank _ Hb). Qed.

(** X20. The violation count never exceeds the number of forbidden phrases,
    and a forbidden phrase that is empty or whitespace-only is never counted,
    although the empty string is a substring of every answer. *)
Theorem must_not_include_violations_blank (answer : string)
    (phrases : list string) (p : string) :
  (must_not_include_violations answer phrases <= length phrases)%nat /\
  (blank p ->
   must_not_include_violations answer (phrases ++ [p])
   = must_not_include_violations answer phrases).
Proof.
  rewrite !violations_count. split; [apply count_hits_le|].
  intros Hb. rewrite count_hits_app, (count_hits_filter _ [p]).
  cbn [List.filter]. rewrite phrase_hit_blank by done. simpl. lia.
Qed.

Lemma must_not_include_violations_blank_witness :
  must_not_include_violations "Use exponential backoff." (["use"] ++ ["  "])
  = must_not_include_violations "Use exponential backoff." ["use"].
Proof.
  apply (must_not_include_violations_blank "Use exponential backoff." ["use"] "  ").
  apply str_strip_blank. reflexivity.
Defined.

Lemma count_hits_perm a l1 l2 : l1 ≡ₚ l2 -> count_hits a l1 = count_hits a l2.
Proof.
  intros Hp. rewrite !count_hits_filter.
  induction Hp as [|x l1 l2 _ IH|x y l|l1 l2 l3 _ IH1 _ IH2]; cbn [List.filter].
  - done.
  - destruct (phrase_hit a x); simpl; by rewrite IH.
  - by destruct (phrase_hit a x), (phrase_hit a y).
  - by rewrite IH1.
Qed.

(** X21. The two phrase scores do not depend on the order of the phrases. *)
Theorem phrase_scores_permutation (answer : string) (phrases phrases' : list string) :
  phrases ≡ₚ phrases' ->
  must_include_score answer phrases = must_include_score answer phrases' /\
  must_not_include_violations answer phrases
  = must_not_include_violations answer phrases'.
Proof.
  intros Hp. split.
  - destruct phrases as [|p l], phrases' as [|p' l']; try done.
    + by apply Permutation_nil_cons in Hp.
    + symmetry in Hp. by apply Permutation_nil_cons in Hp.
    + unfold must_include_score.
      by rewrite (count_hits_perm _ _ _ Hp), (Permutation_length Hp).
  - rewrite !violations_count. by apply count_hits_perm.
Qed.

Lemma phrase_scores_permutation_witness :
  must_not_include_violations "Use exponential backoff." ["retry"; "use"]
  = must_not_include_violations "Use exponential backoff." ["use"; "retry"].
Proof.
  apply (phrase_scores_permutation "Use exponential backoff."
           ["retry"; "use"] ["use"; "retry"]).
  apply Permutation_swap.
Defined.

(** ** More on the comparison (report.py) *)



(** X23. A comparison returns exactly when the two tables share a question
    id and, for every shared id, the violation cells of the rows the two
    tables hold for it are integers; rows of other ids are never read. *)
Theorem compare_runs_returns_iff (old_csv new_csv : list EvalRow) :
  (exists c, compare_runs old_csv new_csv = Ok c) <->
  (exists qid, qid ∈ row_id <$> old_csv /\ qid ∈ row_id <$> new_csv) /\
  (forall qid o n,
      rows_of old_csv !! qid = Some o -> rows_of new_csv !! qid = Some n ->
      is_Some (row_must_not_include_violations o) /\
      is_Some (row_must_not_include_violations n)).
Proof.
  split.
  - intros [c Hc]. apply compare_runs_Ok in Hc as (_ & _ & Hne & Hm & _).
    apply mapM_Ok in Hm. split.
    + destruct (common_ids _ _) as [|q qs] eqn:E; [done|].
      exists q. rewrite <- !elem_of_dom_rows_of. apply elem_of_common_ids.
      rewrite E. left.
    + intros qid o n Ho Hn.
      assert (Hq : qid ∈ common_ids (rows_of old_csv) (rows_of new_csv)).
      { apply elem_of_common_ids. rewrite !elem_of_dom. eauto. }
      apply list_elem_of_lookup in Hq as [i Hi].
      destruct (Forall2_lookup_l _ _ _ _ _ Hm Hi) as (d & _ & Hd).
      revert Hd. unfold delta_of, getkey, int. rewrite Ho, Hn. simpl.
      destruct (row_must_not_include_violations n); simpl; [|done].
      destruct (row_must_not_include_violations o); simpl; [|done].
      intros _. split; by eexists.
  - intros [(qid & Hqo & Hqn) Hcells].
    assert (Hc : qid ∈ common_ids (rows_of old_csv) (rows_of new_csv)).
    { apply elem_of_common_ids. by rewrite !elem_of_dom_rows_of. }
    destruct (mapM_total (delta_of (rows_of old_csv) (rows_of new_csv))
                (common_ids (rows_of old_csv) (rows_of new_csv))) as [ds Hds].
    { apply Forall_forall. intros q Hq. apply elem_of_common_ids in Hq as [Ho Hn].
      apply elem_of_dom in Ho as [o Ho]. apply elem_of_dom in Hn as [n Hn].
      destruct (Hcells q o n Ho Hn) as [[ov Hov] [nv Hnv]].
      unfold delta_of, getkey. rewrite Ho, Hn. simpl. rewrite Hnv, Hov. simpl. eauto. }
    unfold compare_runs.
    assert (Hlo : load_eval_csv old_csv = Ok (rows_of old_csv)).
    { apply load_eval_csv_Ok. split; [|done]. intros ->. by apply elem_of_nil in Hqo. }
    assert (Hln : load_eval_csv new_csv = Ok (rows_of new_csv)).
    { apply load_eval_csv_Ok. split; [|done]. intros ->. by apply elem_of_nil in Hqn. }
    rewrite Hlo, Hln. cbn [mbind result_bind].
    fold (common_ids (rows_of old_csv) (rows_of new_csv)).
    destruct (common_ids (rows_of old_csv) (rows_of new_csv)) as [|q qs] eqn:E.
    { by apply elem_of_nil in Hc. }
    rewrite Hds. cbn [mbind result_bind]. eauto.
Qed.
